(** * ProductStore (challenge-13): a shallow embedding and its properties

    The Go program keeps products in one SQLite table and reaches it only
    through [database/sql].  The embedding has three layers:

    - the data the program declares ([Product], Go [error] values built by
      [fmt.Errorf]);
    - the storage engine, as a state machine over a [World]: the committed
      table, the AUTOINCREMENT counter, the working copy of an open
      transaction, a script of storage faults the engine raises, and the
      trace of driver calls made so far;
    - the six operations of [ProductStore], written call for call after
      [solution-template.go] in a state monad over [World]. *)

From Stdlib Require Import ZArith String List Lia PrimFloat.
From stdpp Require Import base option list gmap strings.

Set Warnings "-register-all,-inexact-float".

Local Open Scope Z_scope.

(** ** Data model *)

(** Go's [int64], [int] (64 bits on the platforms the SQLite driver builds
    for) and [float64].  The program never computes on these values, it
    stores them and reads them back; the one arithmetic step, the successor
    taken by AUTOINCREMENT, is guarded against overflow in [db_Exec_insert]. *)
Definition int64 : Type := Z.
Definition int : Type := Z.
Definition float64 : Type := float.

Definition max_int64 : Z := 9223372036854775807.

Record Product : Type := mkProduct {
  ID : int64;
  Name : string;
  Price : float64;
  Quantity : int;
  Category : string
}.

Definition tableName : string := "products".

(** ** Go errors *)

(** [ErrNoRows] and [ErrTxDone] are the sentinels of [database/sql];
    [ErrDriver] is an error raised by the storage engine; [wrapError] is the
    value [fmt.Errorf] builds for a format with one [%w]: its message and
    the error it unwraps to, which is absent when the operand is [nil]. *)
Inductive error : Type :=
| ErrNoRows
| ErrTxDone
| ErrDriver (msg : string)
| wrapError (msg : string) (err : option error).

(** The [Error()] method. *)
Definition Error (e : error) : string :=
  match e with
  | ErrNoRows => "sql: no rows in result set"
  | ErrTxDone => "sql: transaction has already been committed or rolled back"
  | ErrDriver msg => msg
  | wrapError msg _ => msg
  end.

(** [fmt.Errorf(ctx + ": %w", err)], where [err] is a Go [error] value and
    may be [nil]: a nil operand prints as a bad verb and there is nothing
    to unwrap. *)
Definition Errorf (ctx : string) (err : option error) : error :=
  wrapError
    (ctx +:+ ": " +:+ match err with
                      | Some e => Error e
                      | None => "%!w(<nil>)"
                      end)
    err.

Definition Unwrap (e : error) : option error :=
  match e with
  | wrapError _ err => err
  | _ => None
  end.

Fixpoint error_eqb (a b : error) : bool :=
  match a, b with
  | ErrNoRows, ErrNoRows => true
  | ErrTxDone, ErrTxDone => true
  | ErrDriver m, ErrDriver n => String.eqb m n
  | wrapError m None, wrapError n None => String.eqb m n
  | wrapError m (Some x), wrapError n (Some y) => String.eqb m n && error_eqb x y
  | _, _ => false
  end.

(** [errors.Is]: walk the [Unwrap] chain looking for [target]. *)
Fixpoint errors_Is (err target : error) : bool :=
  error_eqb err target ||
  match err with
  | wrapError _ (Some e) => errors_Is e target
  | _ => false
  end.

(** A Go result pair [(value, error)]. *)
Inductive result (A : Type) : Type :=
| Ok (a : A)
| Err (e : error).
Arguments Ok {A} a.
Arguments Err {A} e.

Definition err_of {A : Type} (r : result A) : option error :=
  match r with
  | Ok _ => None
  | Err e => Some e
  end.

(** ** The storage engine *)

(** The driver calls the program makes, with the arguments that matter. *)
Inductive call : Type :=
| CExecInsert
| CLastInsertId
| CQueryRow (id : int64)
| CExecUpdate (id : int64)
| CExecDelete (id : int64)
| CQuery (query : string)
| CNext
| CScan
| CBegin
| CTxExec (id : int64) (quantity : int)
| CRollback
| CCommit.

Record event : Type := Event {
  ev_call : call;
  ev_err : option error
}.

(** [rows]: the committed table, in rowid order.  [seq]: the largest rowid
    the table ever held (its [sqlite_sequence] entry).  [open_tx]: the
    working copy of the transaction that is open, if any.  [script]: for
    each coming driver call, the fault the engine raises on it ([None]: the
    call goes through; past the end of the script nothing fails).
    [trace]: the driver calls made so far, oldest first. *)
Record World : Type := mkWorld {
  rows : list Product;
  seq : Z;
  open_tx : option (list Product);
  script : list (option string);
  trace : list event
}.

Definition set_rows (t : list Product) (w : World) : World :=
  mkWorld t (seq w) (open_tx w) (script w) (trace w).
Definition set_seq (n : Z) (w : World) : World :=
  mkWorld (rows w) n (open_tx w) (script w) (trace w).
Definition set_open_tx (o : option (list Product)) (w : World) : World :=
  mkWorld (rows w) (seq w) o (script w) (trace w).
Definition set_script (s : list (option string)) (w : World) : World :=
  mkWorld (rows w) (seq w) (open_tx w) s (trace w).
Definition set_trace (t : list event) (w : World) : World :=
  mkWorld (rows w) (seq w) (open_tx w) (script w) t.

(** The state monad the operations run in. *)
Definition M (A : Type) : Type := World → A * World.

#[global] Instance M_ret : MRet M := λ A a w, (a, w).
#[global] Instance M_bind : MBind M :=
  λ A B f m w, let '(a, w') := m w in f a w'.

(** The next entry of the fault script. *)
Definition fault : M (option string) :=
  λ w, match script w with
       | [] => (None, w)
       | o :: s => (o, set_script s w)
       end.

Definition record (c : call) (e : option error) : M unit :=
  λ w, (tt, set_trace (trace w ++ [Event c e]) w).

(** One driver call: the engine either raises the scripted fault and does
    nothing, or runs [body]; either way the call and its outcome are
    traced. *)
Definition driver {A : Type} (c : call) (body : M (result A)) : M (result A) :=
  f ← fault;
  r ← match f with
      | Some msg => mret (Err (ErrDriver msg))
      | None => body
      end;
  _ ← record c (err_of r);
  mret r.

(** [WHERE id = ?] on a table. *)
Definition find_row (id : int64) (t : list Product) : option Product :=
  List.find (λ r, ID r =? id) t.

Definition max_rowid (t : list Product) : Z :=
  fold_right (λ r m, Z.max (ID r) m) 0 t.

(** [INSERT INTO products (name, price, quantity, category) VALUES (?,?,?,?)]
    on [id INTEGER PRIMARY KEY AUTOINCREMENT]: the new rowid is one more
    than the largest the table holds or ever held, and the insert fails
    when that one is the largest int64.  The result carries the rowid. *)
Definition db_Exec_insert (name : string) (price : float64) (quantity : int)
    (category : string) : M (result int64) :=
  driver CExecInsert (λ w,
    let m := Z.max (max_rowid (rows w)) (seq w) in
    if m =? max_int64 then (Err (ErrDriver "database or disk is full"), w)
    else (Ok (m + 1),
          set_seq (m + 1)
            (set_rows (rows w ++ [mkProduct (m + 1) name price quantity category]) w))).

(** [r.LastInsertId()]: the identifier and an error; on an error the
    identifier is the zero value. *)
Definition LastInsertId (r : int64) : M (int64 * option error) :=
  x ← driver CLastInsertId (mret (Ok r));
  match x with
  | Ok id => mret (id, None)
  | Err e => mret (0, Some e)
  end.

(** [db.QueryRow("SELECT * FROM products WHERE id = ?", id)] followed by
    [Scan] into the five fields, in column order. *)
Definition db_QueryRow_Scan (id : int64) : M (result Product) :=
  driver (CQueryRow id) (λ w,
    match find_row id (rows w) with
    | Some r => (Ok r, w)
    | None => (Err ErrNoRows, w)
    end).

Definition update_row (product : Product) (r : Product) : Product :=
  if ID r =? ID product
  then mkProduct (ID r) (Name product) (Price product) (Quantity product)
         (Category product)
  else r.

(** [UPDATE products SET name = ?, price = ?, quantity = ?, category = ?
    WHERE id = ?]. *)
Definition db_Exec_update (product : Product) : M (result unit) :=
  driver (CExecUpdate (ID product)) (λ w,
    (Ok tt, set_rows (map (update_row product) (rows w)) w)).

(** [DELETE FROM products WHERE id = ?]. *)
Definition db_Exec_delete (id : int64) : M (result unit) :=
  driver (CExecDelete id) (λ w,
    (Ok tt, set_rows (List.filter (λ r, negb (ID r =? id)) (rows w)) w)).

(** A result set: the rows still to come. *)
Definition Rows : Type := list Product.

(** [db.Query(query, category)] for the two statements [ListProducts]
    builds.  The statement without a placeholder leaves the argument
    unused; [category = ?] compares text byte for byte. *)
Definition db_Query (query : string) (category : string) : M (result Rows) :=
  driver (CQuery query) (λ w,
    if String.eqb query ("SELECT * FROM " +:+ tableName) then (Ok (rows w), w)
    else if String.eqb query ("SELECT * FROM " +:+ tableName +:+ " WHERE category = ?")
    then (Ok (List.filter (λ r, String.eqb (Category r) category) (rows w)), w)
    else (Err (ErrDriver "SQL logic error"), w)).

(** [rows.Next()]: [true] when a row is ready; [false] at the end of the
    result set and also when the engine fails while stepping, in which
    case the fault is kept for [rows.Err()]. *)
Definition rows_Next (rs : Rows) : M bool :=
  r ← driver CNext (mret (Ok (negb (bool_decide (rs = [])))));
  match r with
  | Ok more => mret more
  | Err _ => mret false
  end.

(** [rows.Scan(&p.ID, &p.Name, &p.Price, &p.Quantity, &p.Category)] on the
    current row. *)
Definition rows_Scan (current : Product) : M (result Product) :=
  driver CScan (mret (Ok current)).

(** [db.Begin()]: the transaction starts from the committed table. *)
Definition db_Begin : M (result unit) :=
  driver CBegin (λ w, (Ok tt, set_open_tx (Some (rows w)) w)).

Definition update_quantity (id : int64) (quantity : int) (r : Product) : Product :=
  if ID r =? id
  then mkProduct (ID r) (Name r) (Price r) quantity (Category r)
  else r.

(** [tx.Exec("UPDATE products SET quantity = ? WHERE id = ?", quantity, id)]:
    a write to the transaction's working copy. *)
Definition tx_Exec_update (quantity : int) (id : int64) : M (result unit) :=
  driver (CTxExec id quantity) (λ w,
    match open_tx w with
    | Some t => (Ok tt, set_open_tx (Some (map (update_quantity id quantity) t)) w)
    | None => (Err ErrTxDone, w)
    end).

(** [tx.Rollback()]: the working copy is dropped.  When the engine fails
    to roll back, the transaction stays as it was. *)
Definition tx_Rollback : M (option error) :=
  r ← driver CRollback (λ w,
        match open_tx w with
        | Some _ => (Ok tt, set_open_tx None w)
        | None => (Err ErrTxDone, w)
        end);
  mret (err_of r).

(** [tx.Commit()]: the working copy becomes the committed table. *)
Definition tx_Commit : M (option error) :=
  r ← driver CCommit (λ w,
        match open_tx w with
        | Some t => (Ok tt, set_open_tx None (set_rows t w))
        | None => (Err ErrTxDone, w)
        end);
  mret (err_of r).

(** ** ProductStore *)

(** [CreateProduct]: the caller's struct comes back with its [ID] field as
    the call leaves it. *)
Definition set_ID (id : int64) (p : Product) : Product :=
  mkProduct id (Name p) (Price p) (Quantity p) (Category p).

Definition CreateProduct (product : Product) : M (Product * option error) :=
  r ← db_Exec_insert (Name product) (Price product) (Quantity product)
        (Category product);
  match r with
  | Err err => mret (product, Some (Errorf "insert product" (Some err)))
  | Ok r =>
      '(id, err) ← LastInsertId r;
      let product := set_ID id product in
      match err with
      | Some _ => mret (product, Some (Errorf "get product id" err))
      | None => mret (product, None)
      end
  end.

Definition GetProduct (id : int64) : M (result Product) :=
  r ← db_QueryRow_Scan id;
  match r with
  | Err err => mret (Err (Errorf "get product" (Some err)))
  | Ok p => mret (Ok p)
  end.

Definition UpdateProduct (product : Product) : M (option error) :=
  r ← GetProduct (ID product);
  match r with
  | Err err => mret (Some (Errorf "get product" (Some err)))
  | Ok _ =>
      r ← db_Exec_update product;
      match r with
      | Err err => mret (Some (Errorf "update product" (Some err)))
      | Ok _ => mret None
      end
  end.

Definition DeleteProduct (id : int64) : M (option error) :=
  r ← GetProduct id;
  match r with
  | Err err => mret (Some (Errorf "get product" (Some err)))
  | Ok _ =>
      r ← db_Exec_delete id;
      match r with
      | Err err => mret (Some (Errorf "delete product" (Some err)))
      | Ok _ => mret None
      end
  end.

(** The loop [for rows.Next() { ... }] of [ListProducts]; [products] is the
    slice built so far.  The loop is left when [Next] reports [false], and
    [rows.Err()] is not read afterwards. *)
Fixpoint for_rows_Next (rs : Rows) (products : list Product)
    : M (result (list Product)) :=
  more ← rows_Next rs;
  match more, rs with
  | true, current :: rest =>
      r ← rows_Scan current;
      match r with
      | Err err => mret (Err (Errorf "list products" (Some err)))
      | Ok p => for_rows_Next rest (products ++ [p])
      end
  | _, _ => mret (Ok products)
  end.

Definition ListProducts (category : string) : M (result (list Product)) :=
  let listQuery := "SELECT * FROM " +:+ tableName in
  let listQuery :=
    if negb (String.eqb category "") then listQuery +:+ " WHERE category = ?"
    else listQuery in
  r ← db_Query listQuery category;
  match r with
  | Err err => mret (Err (Errorf "list products" (Some err)))
  | Ok rs => for_rows_Next rs []
  end.

(** The loop [for id, quantity := range updates { ... }] of
    [BatchUpdateInventory], over the pairs in the order the runtime yields
    them.  [Some e]: the function returned [e] from inside the loop.  The
    variable [err] is the one declared by [tx, err := ps.db.Begin()]: the
    rollback assigns to it before the [return] reads it. *)
Fixpoint range_updates (kvs : list (int64 * int)) : M (option error) :=
  match kvs with
  | [] => mret None
  | (id, quantity) :: rest =>
      r ← GetProduct id;
      let err := err_of r in
      match err with
      | Some _ =>
          err ← tx_Rollback;
          match err with
          | Some _ => mret (Some (Errorf "rollback" err))
          | None => mret (Some (Errorf "get products" err))
          end
      | None =>
          r ← tx_Exec_update quantity id;
          let err := err_of r in
          match err with
          | Some _ =>
              err ← tx_Rollback;
              match err with
              | Some _ => mret (Some (Errorf "rollback" err))
              | None => mret (Some (Errorf "update products" err))
              end
          | None => range_updates rest
          end
      end
  end.

(** [BatchUpdateInventory], given the order [kvs] in which [range] yields
    the entries of the map. *)
Definition BatchUpdateInventory (kvs : list (int64 * int)) : M (option error) :=
  r ← db_Begin;
  match r with
  | Err err => mret (Some (Errorf "begin tx" (Some err)))
  | Ok _ =>
      ret ← range_updates kvs;
      match ret with
      | Some e => mret (Some e)
      | None =>
          err ← tx_Commit;
          match err with
          | Some _ => mret (Some (Errorf "commit" err))
          | None => mret None
          end
      end
  end.

(** [range] over a Go map yields every entry once, in an order the
    language leaves open. *)
Definition range_of (updates : gmap Z Z) (kvs : list (int64 * int)) : Prop :=
  kvs ≡ₚ map_to_list updates.

(** ** What the trace of a call shows *)

(** The driver calls made between [w] and [w']. *)
Definition events_during (w w' : World) : list event :=
  drop (length (trace w)) (trace w').

Definition failed (ev : event) : bool :=
  match ev_err ev with
  | Some _ => true
  | None => false
  end.

(** The two storage calls made for one pair of a batch: the existence check
    and the quantity update. *)
Definition is_pair_call (c : call) : bool :=
  match c with
  | CQueryRow _ | CTxExec _ _ => true
  | _ => false
  end.

Definition is_rollback (c : call) : bool :=
  match c with
  | CRollback => true
  | _ => false
  end.

Definition pair_failed (evs : list event) : bool :=
  existsb (λ ev, is_pair_call (ev_call ev) && failed ev) evs.

Definition rollback_failed (evs : list event) : bool :=
  existsb (λ ev, is_rollback (ev_call ev) && failed ev) evs.

Definition rolled_back (evs : list event) : bool :=
  existsb (λ ev, is_rollback (ev_call ev) && negb (failed ev)) evs.

(** The engine raises no fault on the next call, respectively on any call
    to come. *)
Definition quiet (w : World) : Prop := hd None (script w) = None.

Definition fault_free (w : World) : Prop := Forall (λ o, o = None) (script w).

(** The table after the quantity updates [kvs], applied in order. *)
Definition apply_updates (kvs : list (int64 * int)) (t : list Product) : list Product :=
  fold_left (λ t kv, map (update_quantity kv.1 kv.2) t) kvs t.

Definition requantify (kvs : list (int64 * int)) (r : Product) : Product :=
  fold_left (λ r kv, update_quantity kv.1 kv.2 r) kvs r.

(** What a call leaves of the store proper. *)
Definition same_store (w w' : World) : Prop :=
  rows w' = rows w ∧ seq w' = seq w ∧ open_tx w' = open_tx w.

(** ** How the batch ends *)

(** How a run of the loop ends.  [batch_done]: every pair was checked and
    written to the working copy.  [batch_rolled_back]: a pair failed and
    the rollback went through; the error handed back unwraps to nothing.
    [batch_rollback_failed]: a pair failed and so did the rollback. *)
Inductive batch_end (kvs : list (int64 * int)) (w w' : World) (evs : list event)
    : option error → Prop :=
| batch_done :
    pair_failed evs = false → rollback_failed evs = false →
    rolled_back evs = false →
    open_tx w' = apply_updates kvs <$> open_tx w →
    (kvs ≠ [] → is_Some (open_tx w)) →
    Forall (λ kv, is_Some (find_row kv.1 (rows w))) kvs →
    batch_end kvs w w' evs None
| batch_rolled_back ctx :
    pair_failed evs = true → rollback_failed evs = false →
    rolled_back evs = true →
    open_tx w' = None →
    ctx = "get products"%string ∨ ctx = "update products"%string →
    batch_end kvs w w' evs (Some (Errorf ctx None))
| batch_rollback_failed e :
    pair_failed evs = true → rollback_failed evs = true →
    rolled_back evs = false →
    (is_Some (open_tx w) → is_Some (open_tx w')) →
    batch_end kvs w w' evs (Some (Errorf "rollback" (Some e))).

(** How a call of [BatchUpdateInventory] ends: the five exits of the
    function, with what each leaves behind. *)
Inductive batch_outcome (kvs : list (int64 * int)) (w w' : World)
    (evs : list event) : option error → Prop :=
| begin_failed e :
    evs = [Event CBegin (Some e)] →
    rows w' = rows w → open_tx w' = open_tx w →
    batch_outcome kvs w w' evs (Some (Errorf "begin tx" (Some e)))
| committed :
    pair_failed evs = false → rolled_back evs = false →
    Forall (λ kv, is_Some (find_row kv.1 (rows w))) kvs →
    rows w' = apply_updates kvs (rows w) → open_tx w' = None →
    batch_outcome kvs w w' evs None
| commit_failed e :
    pair_failed evs = false → rolled_back evs = false →
    rows w' = rows w → is_Some (open_tx w') →
    batch_outcome kvs w w' evs (Some (Errorf "commit" (Some e)))
| pair_rolled_back ctx :
    pair_failed evs = true → rollback_failed evs = false →
    rolled_back evs = true →
    rows w' = rows w → open_tx w' = None →
    ctx = "get products"%string ∨ ctx = "update products"%string →
    batch_outcome kvs w w' evs (Some (Errorf ctx None))
| pair_rollback_failed e :
    pair_failed evs = true → rollback_failed evs = true →
    rolled_back evs = false →
    rows w' = rows w → is_Some (open_tx w') →
    batch_outcome kvs w w' evs (Some (Errorf "rollback" (Some e))).

(** ** A small shop, for the concrete runs *)

Definition widget : Product := mkProduct 1 "Widget" 9.99%float 10 "tools".
Definition gadget : Product := mkProduct 2 "Gadget" 19.99%float 5 "tools".
Definition novel : Product := mkProduct 3 "Novel" 12.5%float 7 "books".

Definition shop : World := mkWorld [widget; gadget; novel] 3 None [] [].

(** The same shop with a storage engine that follows [faults]. *)
Definition shop_with (faults : list (option string)) : World :=
  mkWorld [widget; gadget; novel] 3 None faults [].

(** ** Callers *)

(** Every stored row has an ID of its own. *)
Definition unique_ids (w : World) : Prop := NoDup (map ID (rows w)).

(** The rows a [ListProducts] statement selects. *)
Definition select_rows (category : string) (t : list Product) : list Product :=
  if String.eqb category "" then t
  else List.filter (λ r, String.eqb (Category r) category) t.

(** A caller of the store: any sequence of calls of the six operations,
    each on the store the one before left. *)
Inductive op : Type :=
| OpCreate (product : Product)
| OpGet (id : int64)
| OpUpdate (product : Product)
| OpDelete (id : int64)
| OpList (category : string)
| OpBatch (kvs : list (int64 * int)).

Definition run_op (o : op) (w : World) : World :=
  match o with
  | OpCreate product => (CreateProduct product w).2
  | OpGet id => (GetProduct id w).2
  | OpUpdate product => (UpdateProduct product w).2
  | OpDelete id => (DeleteProduct id w).2
  | OpList category => (ListProducts category w).2
  | OpBatch kvs => (BatchUpdateInventory kvs w).2
  end.

Definition run_ops (ops : list op) (w : World) : World :=
  fold_left (λ w o, run_op o w) ops w.

(** ** CountWordFrequency (challenge 6) *)

Module WordFrequency.

(** A Go [rune], and what [for _, r := range text] yields of a string: its
    runes in order. *)
Definition rune : Type := Z.

(** The tables of Go's [unicode] package the function consults. *)
Record Unicode : Type := {
  IsLetter : rune → bool;
  IsDigit : rune → bool;
  IsSpace : rune → bool;
  ToLower : rune → rune
}.

(** [strings.Split(text, " ")], with [cur] the piece being read. *)
Fixpoint Split (text : list rune) (cur : list rune) : list (list rune) :=
  match text with
  | [] => [cur]
  | r :: text =>
      if r =? 32 then cur :: Split text [] else Split text (cur ++ [r])
  end.

(** The variables of the function: the slice [words], the map [m] and the
    content of the builder [b].  A string the builder yields is kept as
    the runes written to it, which its UTF-8 bytes determine. *)
Record state : Type := mkState {
  words : list (list rune);
  m : gmap (list rune) Z;
  b : list rune
}.

(** [b.Len() > 0]. *)
Definition Len_pos (b : list rune) : bool :=
  match b with
  | [] => false
  | _ :: _ => true
  end.

(** [m[w]++]. *)
Definition incr (w : list rune) (m : gmap (list rune) Z) : gmap (list rune) Z :=
  <[w := default 0 (m !! w) + 1]> m.

(** One turn of the loop over the runes of [text]. *)
Definition step (u : Unicode) (st : state) (r : rune) : state :=
  if IsLetter u r || IsDigit u r then
    mkState (words st) (m st) (b st ++ [ToLower u r])
  else if (IsSpace u r || (r =? 45)) && Len_pos (b st) then
    let w := b st in
    mkState (words st ++ [w]) (incr w (m st)) []
  else st.

(** The statements after the loop. *)
Definition finish (st : state) : state :=
  if Len_pos (b st) then
    let w := b st in
    mkState (words st ++ [w]) (incr w (m st)) (b st)
  else st.

Definition CountWordFrequency (u : Unicode) (text : list rune)
    : gmap (list rune) Z :=
  let words := Split text [] in
  m (finish (fold_left (step u) text (mkState words ∅ []))).

(** How often the map says a word occurs: [m[w]] in Go, zero when the key
    is absent. *)
Definition count (m : gmap (list rune) Z) (w : list rune) : Z :=
  default 0 (m !! w).

(** A rune that goes into a word, a rune that ends one, and a rune the
    loop passes over. *)
Definition alnum (u : Unicode) (r : rune) : bool := IsLetter u r || IsDigit u r.

Definition separator (u : Unicode) (r : rune) : bool :=
  negb (alnum u r) && (IsSpace u r || (r =? 45)).

(** A word as the loop builds them: one rune at least, each the lower
    case of a letter or digit. *)
Definition word_rune (u : Unicode) (c : rune) : Prop :=
  ∃ r, alnum u r = true ∧ c = ToLower u r.

Definition word (u : Unicode) (w : list rune) : Prop :=
  w ≠ [] ∧ Forall (word_rune u) w.

(** What the loop keeps true of the map and the builder. *)
Definition words_only (u : Unicode) (st : state) : Prop :=
  (∀ k n, m st !! k = Some n → word u k ∧ 1 ≤ n) ∧
  Forall (word_rune u) (b st).

(** The tables on the ASCII range, where no rune above 127 is classified,
    for concrete runs. *)
Definition ascii : Unicode := {|
  IsLetter r := (65 <=? r) && (r <=? 90) || (97 <=? r) && (r <=? 122);
  IsDigit r := (48 <=? r) && (r <=? 57);
  IsSpace r := (9 <=? r) && (r <=? 13) || (r =? 32);
  ToLower r := if (65 <=? r) && (r <=? 90) then r + 32 else r
|}.

(** The runes of an ASCII string. *)
Definition runes (s : string) : list rune :=
  map (λ c, Z.of_nat (Ascii.nat_of_ascii c)) (list_ascii_of_string s).

End WordFrequency.

(** ** Rows and tables *)

Section Tables.

Implicit Types (t : list Product) (r p : Product) (id : int64).

Lemma find_row_ID id t r : find_row id t = Some r → ID r = id.
Proof.
  unfold find_row. intros H. apply find_some in H as [_ H]. lia.
Qed.

Lemma find_row_In id t r : find_row id t = Some r → In r t.
Proof. unfold find_row. intros H. by apply find_some in H as [H _]. Qed.


Lemma max_rowid_ge t r : In r t → ID r ≤ max_rowid t.
Proof.
  induction t as [|a t IH]; simpl; [done|].
  intros [->|H]; [lia|]. specialize (IH H). lia.
Qed.


(** A row-wise rewrite that keeps every [ID] commutes with the lookup. *)
Lemma find_row_map (f : Product → Product) id t :
  (∀ r, ID (f r) = ID r) →
  find_row id (map f t) = f <$> find_row id t.
Proof.
  intros Hf. unfold find_row. induction t as [|r t IH]; simpl; [done|].
  rewrite Hf. by destruct (ID r =? id).
Qed.

Lemma ID_update_row product r : ID (update_row product r) = ID r.
Proof. unfold update_row. by destruct (ID r =? ID product). Qed.

Lemma ID_update_quantity id q r : ID (update_quantity id q r) = ID r.
Proof. unfold update_quantity. by destruct (ID r =? id). Qed.

Lemma update_row_other product r : ID r ≠ ID product → update_row product r = r.
Proof. unfold update_row. intros H. destruct (Z.eqb_spec (ID r) (ID product)); done. Qed.

Lemma find_row_filter_ne id id' t :
  id' ≠ id →
  find_row id' (List.filter (λ r, negb (ID r =? id)) t) = find_row id' t.
Proof.
  intros Hne. unfold find_row. induction t as [|r t IH]; simpl; [done|].
  destruct (Z.eqb_spec (ID r) id) as [E|E]; simpl.
  - destruct (Z.eqb_spec (ID r) id'); [congruence|done].
  - by rewrite IH.
Qed.

Lemma find_row_filter_eq id t :
  find_row id (List.filter (λ r, negb (ID r =? id)) t) = None.
Proof.
  unfold find_row. induction t as [|r t IH]; simpl; [done|].
  destruct (Z.eqb_spec (ID r) id) as [E|E]; simpl; [done|].
  destruct (Z.eqb_spec (ID r) id); done.
Qed.

Lemma ID_requantify kvs r : ID (requantify kvs r) = ID r.
Proof.
  unfold requantify. revert r.
  induction kvs as [|[k q] kvs IH]; intros r; simpl; [done|].
  by rewrite IH, ID_update_quantity.
Qed.

Lemma requantify_fields kvs r :
  Name (requantify kvs r) = Name r ∧ Price (requantify kvs r) = Price r ∧
  Category (requantify kvs r) = Category r.
Proof.
  unfold requantify. revert r.
  induction kvs as [|[k q] kvs IH]; intros r; simpl; [done|].
  destruct (IH (update_quantity k q r)) as (-> & -> & ->).
  unfold update_quantity. by destruct (ID r =? k).
Qed.

Lemma requantify_other kvs r :
  ID r ∉ kvs.*1 → requantify kvs r = r.
Proof.
  unfold requantify. revert r.
  induction kvs as [|[k q] kvs IH]; intros r; simpl; [done|].
  intros Hn. apply not_elem_of_cons in Hn as [Hk Hn].
  assert (update_quantity k q r = r) as ->.
  { unfold update_quantity. destruct (Z.eqb_spec (ID r) k); done. }
  by apply IH.
Qed.

(** With keys that are pairwise distinct, as those of a map are, the last
    word on a row's quantity is the one its own key carries. *)
Lemma Quantity_requantify kvs r q :
  NoDup kvs.*1 → (ID r, q) ∈ kvs → Quantity (requantify kvs r) = q.
Proof.
  unfold requantify. revert r.
  induction kvs as [|[k q'] kvs IH]; intros r Hnd Hin; simpl.
  - by apply elem_of_nil in Hin.
  - apply NoDup_cons in Hnd as [Hk Hnd].
    apply elem_of_cons in Hin as [Heq|Hin].
    + injection Heq as <- <-.
      pose proof (requantify_other kvs (update_quantity (ID r) q r)) as Ho.
      unfold requantify in Ho. rewrite Ho.
      * unfold update_quantity. by rewrite Z.eqb_refl.
      * by rewrite ID_update_quantity.
    + apply IH; [done|]. by rewrite ID_update_quantity.
Qed.

Lemma find_row_apply_updates kvs id t :
  find_row id (apply_updates kvs t) = requantify kvs <$> find_row id t.
Proof.
  unfold apply_updates, requantify. revert t.
  induction kvs as [|[k q] kvs IH]; intros t; simpl.
  - by destruct (find_row id t).
  - rewrite IH, find_row_map by apply ID_update_quantity.
    by destruct (find_row id t).
Qed.

End Tables.

(** ** The driver calls, one at a time *)

Create HintDb engine discriminated.
#[local] Hint Unfold mbind mret M_bind M_ret driver fault record : engine.

Ltac unfold_M := repeat (progress autounfold with engine in *).

(** Run the scripted fault of a driver call: three cases, script empty,
    next entry quiet, next entry a fault. *)
Ltac script_cases w :=
  let t := fresh "t" in let s := fresh "s" in let o := fresh "o" in
  let sc := fresh "sc" in let tr := fresh "tr" in let msg := fresh "msg" in
  destruct w as [t s o [|[msg|] sc] tr]; simpl in *.

Section Engine.

Implicit Types (w : World) (id : int64).

Lemma drop_trace (tr evs : list event) : drop (length tr) (tr ++ evs) = evs.
Proof. by rewrite drop_app_length. Qed.

Lemma GetProduct_inv id w r w' :
  GetProduct id w = (r, w') →
  rows w' = rows w ∧ seq w' = seq w ∧ open_tx w' = open_tx w ∧
  script w' = tl (script w) ∧
  ∃ o, trace w' = trace w ++ [Event (CQueryRow id) o] ∧
    match r with
    | Ok p => o = None ∧ find_row id (rows w) = Some p ∧ quiet w
    | Err e => e = Errorf "get product" o ∧
        (o = Some ErrNoRows ∧ find_row id (rows w) = None ∧ quiet w ∨
         ∃ msg, o = Some (ErrDriver msg) ∧ hd None (script w) = Some msg)
    end.
Proof.
  unfold GetProduct, db_QueryRow_Scan, quiet. unfold_M.
  script_cases w; try destruct (find_row id t) eqn:E; simpl;
    intros [= <- <-]; simpl; repeat split; eauto 10.
Qed.

Lemma tx_Exec_update_inv q id w r w' :
  tx_Exec_update q id w = (r, w') →
  rows w' = rows w ∧ seq w' = seq w ∧ script w' = tl (script w) ∧
  trace w' = trace w ++ [Event (CTxExec id q) (err_of r)] ∧
  match r with
  | Ok _ => ∃ t, open_tx w = Some t ∧
      open_tx w' = Some (map (update_quantity id q) t)
  | Err _ => open_tx w' = open_tx w
  end.
Proof.
  unfold tx_Exec_update. unfold_M.
  script_cases w; try destruct o; simpl;
    intros [= <- <-]; simpl; repeat split; eauto.
Qed.

Lemma tx_Rollback_inv w err w' :
  tx_Rollback w = (err, w') →
  rows w' = rows w ∧ seq w' = seq w ∧ script w' = tl (script w) ∧
  trace w' = trace w ++ [Event CRollback err] ∧
  match err with
  | None => open_tx w' = None
  | Some _ => open_tx w' = open_tx w
  end.
Proof.
  unfold tx_Rollback. unfold_M.
  script_cases w; try destruct o; simpl;
    intros [= <- <-]; simpl; repeat split; eauto.
Qed.

Lemma tx_Commit_inv w err w' :
  tx_Commit w = (err, w') →
  seq w' = seq w ∧ script w' = tl (script w) ∧
  trace w' = trace w ++ [Event CCommit err] ∧
  match err with
  | None => ∃ t, open_tx w = Some t ∧ rows w' = t ∧ open_tx w' = None
  | Some _ => rows w' = rows w ∧ open_tx w' = open_tx w
  end.
Proof.
  unfold tx_Commit. unfold_M.
  script_cases w; try destruct o; simpl;
    intros [= <- <-]; simpl; repeat split; eauto.
Qed.

Lemma db_Begin_inv w r w' :
  db_Begin w = (r, w') →
  rows w' = rows w ∧ seq w' = seq w ∧ script w' = tl (script w) ∧
  trace w' = trace w ++ [Event CBegin (err_of r)] ∧
  match r with
  | Ok _ => open_tx w' = Some (rows w)
  | Err _ => open_tx w' = open_tx w
  end.
Proof.
  unfold db_Begin. unfold_M.
  script_cases w; intros [= <- <-]; simpl; repeat split; eauto.
Qed.

End Engine.

(** ** The batch loop *)

Section Batch.

Implicit Types (w : World) (id : int64) (kvs : list (int64 * int)).

Lemma range_updates_cons id q kvs w :
  range_updates ((id, q) :: kvs) w =
  let '(r, w1) := GetProduct id w in
  match r with
  | Err _ =>
      let '(err, w2) := tx_Rollback w1 in
      (Some match err with
            | Some _ => Errorf "rollback" err
            | None => Errorf "get products" err
            end, w2)
  | Ok _ =>
      let '(r2, w2) := tx_Exec_update q id w1 in
      match r2 with
      | Err _ =>
          let '(err, w3) := tx_Rollback w2 in
          (Some match err with
                | Some _ => Errorf "rollback" err
                | None => Errorf "update products" err
                end, w3)
      | Ok _ => range_updates kvs w2
      end
  end.
Proof.
  simpl. unfold mbind at 1, M_bind at 1.
  destruct (GetProduct id w) as [[p|e] w1]; simpl.
  - unfold mbind at 1, M_bind at 1.
    destruct (tx_Exec_update q id w1) as [[u|e] w2]; simpl; [done|].
    unfold mbind, M_bind. by destruct (tx_Rollback w2) as [[e'|] w3].
  - unfold mbind, M_bind. by destruct (tx_Rollback w1) as [[e'|] w2].
Qed.

Lemma range_updates_spec kvs : ∀ w ret w',
  range_updates kvs w = (ret, w') →
  rows w' = rows w ∧ seq w' = seq w ∧
  ∃ evs, trace w' = trace w ++ evs ∧ batch_end kvs w w' evs ret.
Proof.
  induction kvs as [|[id q] kvs IH]; intros w ret w' H.
  - injection H as <- <-. do 2 (split; [done|]). exists [].
    split; [by rewrite app_nil_r|].
    constructor; try done. by destruct (open_tx w).
  - rewrite range_updates_cons in H.
    destruct (GetProduct id w) as [r w1] eqn:HG.
    apply GetProduct_inv in HG as (Hr1 & Hs1 & Ho1 & _ & o & Ht1 & HG).
    destruct r as [p|e].
    + destruct HG as (-> & Hfind & _).
      destruct (tx_Exec_update q id w1) as [r2 w2] eqn:HE.
      apply tx_Exec_update_inv in HE as (Hr2 & Hs2 & _ & Ht2 & HE).
      destruct r2 as [u|e2]; simpl in Ht2.
      * destruct HE as (t & Hopen & Hopen2).
        apply IH in H as (Hr & Hs & evs & Ht & Hend).
        do 2 (split; [congruence|]).
        exists (Event (CQueryRow id) None :: Event (CTxExec id q) None :: evs).
        split; [by rewrite Ht, Ht2, Ht1, <- !app_assoc|].
        rewrite Ho1 in Hopen.
        destruct Hend as [Hpf Hrf Hrb Hop Hne Hall
                         |ctx Hpf Hrf Hrb Hop Hctx
                         |e Hpf Hrf Hrb Hop].
        -- constructor; try done.
           ++ by rewrite Hop, Hopen2, Hopen.
           ++ constructor; [simpl; by rewrite Hfind|]. by rewrite <- Hr1, <- Hr2.
        -- by constructor.
        -- constructor; try done. intros _. apply Hop. by rewrite Hopen2.
      * destruct (tx_Rollback w2) as [err w3] eqn:HR.
        apply tx_Rollback_inv in HR as (Hr3 & Hs3 & _ & Ht3 & HR).
        injection H as <- <-.
        do 2 (split; [congruence|]).
        exists [Event (CQueryRow id) None; Event (CTxExec id q) (Some e2);
                Event CRollback err].
        split; [by rewrite Ht3, Ht2, Ht1, <- !app_assoc|].
        destruct err as [e'|].
        -- constructor; try done. intros Hsome. by rewrite HR, HE, Ho1.
        -- constructor; try done. by right.
    + destruct HG as [-> HG].
      destruct (tx_Rollback w1) as [err w2] eqn:HR.
      apply tx_Rollback_inv in HR as (Hr2 & Hs2 & _ & Ht2 & HR).
      injection H as <- <-.
      do 2 (split; [congruence|]).
      exists [Event (CQueryRow id) o; Event CRollback err].
      split; [by rewrite Ht2, Ht1, <- !app_assoc|].
      assert (pair_failed [Event (CQueryRow id) o; Event CRollback err] = true) as Hpf.
      { destruct HG as [(-> & _)|(msg & -> & _)]; by destruct err. }
      destruct err as [e'|].
      * constructor; try done. intros Hsome. by rewrite HR, Ho1.
      * constructor; try done. by left.
Qed.

Lemma BatchUpdateInventory_eq kvs w :
  BatchUpdateInventory kvs w =
  let '(r, w1) := db_Begin w in
  match r with
  | Err err => (Some (Errorf "begin tx" (Some err)), w1)
  | Ok _ =>
      let '(ret, w2) := range_updates kvs w1 in
      match ret with
      | Some e => (Some e, w2)
      | None =>
          let '(err, w3) := tx_Commit w2 in
          (match err with
           | Some _ => Some (Errorf "commit" err)
           | None => None
           end, w3)
      end
  end.
Proof.
  unfold BatchUpdateInventory. unfold mbind at 1, M_bind at 1.
  destruct (db_Begin w) as [[u|e] w1]; simpl; [|done].
  unfold mbind at 1, M_bind at 1.
  destruct (range_updates kvs w1) as [[e|] w2]; simpl; [done|].
  unfold mbind, M_bind. by destruct (tx_Commit w2) as [[e|] w3].
Qed.

Lemma pair_failed_app evs1 evs2 :
  pair_failed (evs1 ++ evs2) = pair_failed evs1 || pair_failed evs2.
Proof. apply existsb_app. Qed.

Lemma rollback_failed_app evs1 evs2 :
  rollback_failed (evs1 ++ evs2) = rollback_failed evs1 || rollback_failed evs2.
Proof. apply existsb_app. Qed.

Lemma rolled_back_app evs1 evs2 :
  rolled_back (evs1 ++ evs2) = rolled_back evs1 || rolled_back evs2.
Proof. apply existsb_app. Qed.

Lemma BatchUpdateInventory_spec kvs w ret w' :
  BatchUpdateInventory kvs w = (ret, w') →
  seq w' = seq w ∧
  ∃ evs, trace w' = trace w ++ evs ∧ batch_outcome kvs w w' evs ret.
Proof.
  rewrite BatchUpdateInventory_eq.
  destruct (db_Begin w) as [r w1] eqn:HB.
  apply db_Begin_inv in HB as (Hr1 & Hs1 & _ & Ht1 & HB).
  destruct r as [u|e]; simpl in Ht1.
  2: { intros [= <- <-]. split; [done|]. eexists. split; [done|].
       constructor; congruence. }
  destruct (range_updates kvs w1) as [ret2 w2] eqn:HL.
  apply range_updates_spec in HL as (Hr2 & Hs2 & evs & Ht2 & Hend).
  destruct Hend as [Hpf Hrf Hrb Hop Hne Hall
                   |ctx Hpf Hrf Hrb Hop Hctx
                   |e Hpf Hrf Hrb Hop].
  - destruct (tx_Commit w2) as [err w3] eqn:HC.
    apply tx_Commit_inv in HC as (Hs3 & _ & Ht3 & HC).
    intros [= <- <-]. split; [congruence|].
    exists (Event CBegin None :: evs ++ [Event CCommit err]).
    split. { rewrite Ht3, Ht2, Ht1, <- !app_assoc. done. }
    rewrite HB in Hop. simpl in Hop.
    assert (pair_failed (Event CBegin None :: evs ++ [Event CCommit err]) = false)
      as Hpf'.
    { change (pair_failed (evs ++ [Event CCommit err]) = false).
      rewrite pair_failed_app, Hpf. done. }
    assert (rolled_back (Event CBegin None :: evs ++ [Event CCommit err]) = false)
      as Hrb'.
    { change (rolled_back (evs ++ [Event CCommit err]) = false).
      rewrite rolled_back_app, Hrb. done. }
    destruct err as [e|].
    + destruct HC as [HC1 HC2]. constructor; try done; [congruence|].
      by rewrite HC2, Hop.
    + destruct HC as (t & Ht & <- & HC). constructor; try done.
      * by rewrite <- Hr1.
      * rewrite Hop in Ht. by injection Ht as <-.
  - intros [= <- <-]. split; [congruence|].
    exists (Event CBegin None :: evs).
    split. { by rewrite Ht2, Ht1, <- !app_assoc. }
    constructor; try done. congruence.
  - intros [= <- <-]. split; [congruence|].
    exists (Event CBegin None :: evs).
    split. { by rewrite Ht2, Ht1, <- !app_assoc. }
    constructor; try done; [congruence|]. apply Hop. by rewrite HB.
Qed.

Lemma events_during_app w w' evs :
  trace w' = trace w ++ evs → events_during w w' = evs.
Proof. unfold events_during. intros ->. apply drop_trace. Qed.

End Batch.

(** Evaluate a call symbolically, keeping list operations folded. *)
Ltac run_M :=
  unfold BatchUpdateInventory, range_updates, ListProducts, CreateProduct,
    UpdateProduct, DeleteProduct, GetProduct, LastInsertId, db_Exec_insert,
    db_QueryRow_Scan, db_Exec_update, db_Exec_delete, db_Query, db_Begin,
    tx_Exec_update, tx_Rollback, tx_Commit;
  unfold_M; simpl; try reflexivity.

(** ** BatchUpdateInventory *)

(** Without a failed pair the trace shows none; with one, the call hands
    back an error.  What the error unwraps to is below. *)
Lemma BatchUpdateInventory_swallows_cause kvs w e w' :
  BatchUpdateInventory kvs w = (Some e, w') →
  pair_failed (events_during w w') = true →
  rollback_failed (events_during w w') = false →
  Unwrap e = None ∧ errors_Is e ErrNoRows = false.
Proof.
  intros H Hpf Hrf.
  apply BatchUpdateInventory_spec in H as (_ & evs & Ht & Hout).
  rewrite (events_during_app _ _ _ Ht) in Hpf, Hrf.
  inversion Hout as [e0 Hevs| |e0 Hpf'|ctx Hpf' Hrf' Hrb Hr Ho Hctx|e0 Hpf' Hrf'];
    subst; try congruence; done.
Qed.




(** C3.  Product 7 does not exist: [GetProduct] reports [sql.ErrNoRows],
    the rollback goes through, and the error the batch returns carries the
    stage but wraps [nil]: the rollback's result overwrote the not-found
    error before the [return] read it.  The same happens on the update
    path, where the engine's fault is lost. *)
Theorem BatchUpdateInventory_loses_cause :
  (∃ w', GetProduct 7 shop = (Err (Errorf "get product" (Some ErrNoRows)), w')) ∧
  (BatchUpdateInventory [(7, 1)] shop).1 = Some (Errorf "get products" None) ∧
  Error (Errorf "get products" None) = "get products: %!w(<nil>)"%string ∧
  Unwrap (Errorf "get products" None) = None ∧
  errors_Is (Errorf "get products" None) ErrNoRows = false ∧
  rollback_failed (events_during shop (BatchUpdateInventory [(7, 1)] shop).2) = false ∧
  let w := shop_with [None; None; Some "database is locked"] in
  (BatchUpdateInventory [(1, 3)] w).1 = Some (Errorf "update products" None) ∧
  rollback_failed (events_during w (BatchUpdateInventory [(1, 3)] w).2) = false ∧
  errors_Is (Errorf "update products" None) (ErrDriver "database is locked") = false.
Proof.
  split; [eexists; by vm_compute|].
  split; [by vm_compute|].
  split; [reflexivity|].
  split; [reflexivity|].
  split; [reflexivity|].
  split; [by vm_compute|].
  intros w. repeat split; by vm_compute.
Qed.

(** A batch of IDs that all exist goes through when the engine raises no
    fault. *)
Lemma range_updates_fault_free kvs : ∀ w t,
  fault_free w →
  open_tx w = Some t →
  Forall (λ kv, is_Some (find_row kv.1 (rows w))) kvs →
  ∃ w' t', range_updates kvs w = (None, w') ∧ open_tx w' = Some t' ∧
           fault_free w'.
Proof.
  unfold fault_free.
  induction kvs as [|[id q] kvs IH]; intros w t Hff Ho Hall.
  - by exists w, t.
  - apply Forall_cons in Hall as [[p Hp] Hall]. simpl in Hp.
    rewrite range_updates_cons.
    assert (∃ w1, GetProduct id w = (Ok p, w1) ∧ rows w1 = rows w ∧
                  open_tx w1 = Some t ∧ Forall (λ o, o = None) (script w1))
      as (w1 & -> & Hr1 & Ho1 & Hff1).
    { destruct w as [t0 s o [|o1 sc] tr]; simpl in *.
      - eexists. split; [run_M; rewrite Hp; reflexivity|]. by simpl.
      - inversion Hff as [|? ? -> Hff']. eexists.
        split; [run_M; rewrite Hp; reflexivity|]. by simpl. }
    assert (∃ w2, tx_Exec_update q id w1 = (Ok tt, w2) ∧ rows w2 = rows w1 ∧
                  open_tx w2 = Some (map (update_quantity id q) t) ∧
                  Forall (λ o, o = None) (script w2))
      as (w2 & -> & Hr2 & Ho2 & Hff2).
    { destruct w1 as [t0 s o [|o1 sc] tr]; simpl in *; subst o.
      - eexists. split; [run_M|]. by simpl.
      - inversion Hff1 as [|? ? -> Hff']. eexists. split; [run_M|]. by simpl. }
    apply (IH w2 _ Hff2 Ho2). by rewrite Hr2, Hr1.
Qed.

Lemma BatchUpdateInventory_succeeds kvs w :
  fault_free w →
  Forall (λ kv, is_Some (find_row kv.1 (rows w))) kvs →
  ∃ w', BatchUpdateInventory kvs w = (None, w').
Proof.
  unfold fault_free. intros Hff Hall. rewrite BatchUpdateInventory_eq.
  assert (∃ w1, db_Begin w = (Ok tt, w1) ∧ rows w1 = rows w ∧
                open_tx w1 = Some (rows w) ∧ fault_free w1)
    as (w1 & -> & Hr1 & Ho1 & Hff1).
  { unfold fault_free. destruct w as [t0 s o [|o1 sc] tr]; simpl in *.
    - eexists. split; [run_M|]. by simpl.
    - inversion Hff as [|? ? -> Hff']. eexists. split; [run_M|]. by simpl. }
  rewrite <- Hr1 in Hall.
  destruct (range_updates_fault_free kvs w1 _ Hff1 Ho1 Hall)
    as (w2 & t' & -> & Ho2 & Hff2).
  unfold fault_free in Hff2.
  destruct w2 as [t0 s o [|o1 sc] tr]; simpl in *; subst o.
  - eexists. run_M.
  - inversion Hff2 as [|? ? -> Hff']. eexists. run_M.
Qed.

(** After a commit every listed row carries its new quantity, and only
    that changed. *)
Lemma committed_row (updates : gmap Z Z) kvs t id q :
  range_of updates kvs →
  Forall (λ kv, is_Some (find_row kv.1 t)) kvs →
  updates !! id = Some q →
  ∃ p, find_row id t = Some p ∧
       find_row id (apply_updates kvs t) =
         Some (mkProduct (ID p) (Name p) (Price p) q (Category p)).
Proof.
  unfold range_of. intros Hperm Hall Hq.
  assert ((id, q) ∈ kvs) as Hin.
  { rewrite Hperm. by apply elem_of_map_to_list. }
  assert (NoDup kvs.*1) as Hnd.
  { rewrite Hperm. apply NoDup_fst_map_to_list. }
  rewrite Forall_forall in Hall. destruct (Hall _ Hin) as [p Hp]. simpl in Hp.
  exists p. split; [done|].
  rewrite find_row_apply_updates, Hp. simpl. f_equal.
  pose proof (find_row_ID _ _ _ Hp) as Hid.
  pose proof (ID_requantify kvs p) as H1.
  destruct (requantify_fields kvs p) as (H2 & H3 & H4).
  pose proof (Quantity_requantify kvs p q Hnd) as H5.
  rewrite Hid in H5. specialize (H5 Hin).
  destruct (requantify kvs p) as [i n pr qu c]. simpl in *. congruence.
Qed.

(** C7.  After [BatchUpdateInventory] returns success, every ID of the map
    is one that existed, and [GetProduct] on it returns the product it
    held before with the quantity the map gives and nothing else changed. *)
Theorem BatchUpdateInventory_commit (updates : gmap Z Z) kvs w w' id q :
  range_of updates kvs →
  BatchUpdateInventory kvs w = (None, w') →
  updates !! id = Some q →
  quiet w' →
  ∃ p w'',
    find_row id (rows w) = Some p ∧
    GetProduct id w' = (Ok (mkProduct id (Name p) (Price p) q (Category p)), w'') ∧
    rows w'' = rows w'.
Proof.
  intros Hperm H Hq Hquiet.
  apply BatchUpdateInventory_spec in H as (_ & evs & Ht & Hout).
  inversion Hout as [|Hpf Hrb Hall Hr Ho| | |]; subst.
  destruct (committed_row updates kvs (rows w) id q Hperm Hall Hq) as (p & Hp & Hp').
  rewrite <- Hr in Hp'. rewrite (find_row_ID _ _ _ Hp) in Hp'.
  exists p.
  destruct (GetProduct id w') as [r w''] eqn:HG. exists w''.
  apply GetProduct_inv in HG as (Hr' & _ & _ & _ & o & _ & HG).
  split; [done|]. split; [|done]. f_equal.
  destruct r as [p'|e].
  - destruct HG as (_ & HG & _). congruence.
  - destruct HG as [_ [(_ & HG & _)|(msg & _ & HG)]]; [congruence|].
    unfold quiet in Hquiet. congruence.
Qed.

Lemma BatchUpdateInventory_commit_witness :
  let kvs := [(2, 0); (1, 3)] in
  ∃ p w'',
    find_row 2 (rows shop) = Some p ∧
    GetProduct 2 (BatchUpdateInventory kvs shop).2 =
      (Ok (mkProduct 2 (Name p) (Price p) 0 (Category p)), w'') ∧
    rows w'' = rows (BatchUpdateInventory kvs shop).2.
Proof.
  intros kvs.
  apply (BatchUpdateInventory_commit {[1 := 3; 2 := 0]} kvs shop).
  - unfold range_of. vm_compute. reflexivity.
  - vm_compute. reflexivity.
  - vm_compute. reflexivity.
  - vm_compute. reflexivity.
Defined.

(** C9.  With an empty map and an engine that raises no fault the call
    succeeds; it makes two driver calls, the begin and the commit, with no
    call for any pair between them; the table and the rowid counter are as
    before and no transaction is left open. *)
Theorem BatchUpdateInventory_empty kvs w :
  range_of ∅ kvs →
  fault_free w →
  ∃ w', BatchUpdateInventory kvs w = (None, w') ∧
        events_during w w' = [Event CBegin None; Event CCommit None] ∧
        rows w' = rows w ∧ seq w' = seq w ∧ open_tx w' = None ∧
        fault_free w'.
Proof.
  unfold range_of, fault_free. rewrite map_to_list_empty.
  intros ->%Permutation_nil_r Hff.
  destruct w as [t s o sc tr]. simpl in *.
  assert (drop (length tr)
            ((tr ++ [Event CBegin None]) ++ [Event CCommit None]) =
          [Event CBegin None; Event CCommit None]) as Hd.
  { rewrite <- app_assoc. apply drop_trace. }
  destruct sc as [|o1 [|o2 sc]].
  - eexists. split; [run_M|]. unfold events_during. simpl.
    by rewrite Hd.
  - inversion Hff as [|? ? -> _]. eexists. split; [run_M|].
    unfold events_during. simpl. by rewrite Hd.
  - inversion Hff as [|? ? -> Hff']. inversion Hff' as [|? ? -> Hff''].
    eexists. split; [run_M|]. unfold events_during. simpl.
    by rewrite Hd.
Qed.

Lemma BatchUpdateInventory_empty_witness :
  ∃ w', BatchUpdateInventory [] shop = (None, w') ∧
        events_during shop w' = [Event CBegin None; Event CCommit None] ∧
        rows w' = rows shop ∧ seq w' = seq shop ∧ open_tx w' = None ∧
        fault_free w'.
Proof.
  apply (BatchUpdateInventory_empty [] shop).
  - unfold range_of. rewrite map_to_list_empty. reflexivity.
  - constructor.
Defined.

(** ** ListProducts *)

Section Listing.

Implicit Types (w : World) (rs products : list Product).

Lemma rows_Next_fault_free rs w :
  fault_free w →
  ∃ w', rows_Next rs w = (negb (bool_decide (rs = [])), w') ∧
        same_store w w' ∧ fault_free w'.
Proof.
  unfold fault_free, same_store, rows_Next. intros Hff.
  destruct w as [t s o [|o1 sc] tr]; simpl in *.
  - eexists. split; [unfold_M; simpl; reflexivity|]. by simpl.
  - inversion Hff as [|? ? -> Hff']. eexists.
    split; [unfold_M; simpl; reflexivity|]. by simpl.
Qed.

Lemma rows_Scan_fault_free current w :
  fault_free w →
  ∃ w', rows_Scan current w = (Ok current, w') ∧
        same_store w w' ∧ fault_free w'.
Proof.
  unfold fault_free, same_store, rows_Scan. intros Hff.
  destruct w as [t s o [|o1 sc] tr]; simpl in *.
  - eexists. split; [unfold_M; simpl; reflexivity|]. by simpl.
  - inversion Hff as [|? ? -> Hff']. eexists.
    split; [unfold_M; simpl; reflexivity|]. by simpl.
Qed.

Lemma for_rows_Next_eq rs products w :
  for_rows_Next rs products w =
  let '(more, w1) := rows_Next rs w in
  match more, rs with
  | true, current :: rest =>
      let '(r, w2) := rows_Scan current w1 in
      match r with
      | Err err => (Err (Errorf "list products" (Some err)), w2)
      | Ok p => for_rows_Next rest (products ++ [p]) w2
      end
  | _, _ => (Ok products, w1)
  end.
Proof.
  destruct rs as [|current rest]; simpl; unfold mbind at 1, M_bind at 1;
    destruct (rows_Next _ w) as [[|] w1]; try done.
  unfold mbind, M_bind.
  by destruct (rows_Scan current w1) as [[p|e] w2].
Qed.

(** With a quiet engine the loop reads the result set to its end. *)
Lemma for_rows_Next_fault_free rs : ∀ products w,
  fault_free w →
  ∃ w', for_rows_Next rs products w = (Ok (products ++ rs), w') ∧
        same_store w w' ∧ fault_free w'.
Proof.
  induction rs as [|current rest IH]; intros products w Hff;
    rewrite for_rows_Next_eq.
  - destruct (rows_Next_fault_free [] w Hff) as (w1 & -> & Hs1 & Hff1); simpl.
    exists w1. by rewrite app_nil_r.
  - destruct (rows_Next_fault_free (current :: rest) w Hff)
      as (w1 & -> & Hs1 & Hff1); simpl.
    destruct (rows_Scan_fault_free current w1 Hff1) as (w2 & -> & Hs2 & Hff2).
    destruct (IH (products ++ [current]) w2 Hff2) as (w3 & -> & Hs3 & Hff3).
    exists w3. rewrite <- app_assoc. split; [done|]. split; [|done].
    unfold same_store in *. intuition congruence.
Qed.

Lemma db_Query_fault_free query category w :
  fault_free w →
  ∃ w', db_Query query category w =
          ((if String.eqb query "SELECT * FROM products"
            then Ok (rows w)
            else if String.eqb query "SELECT * FROM products WHERE category = ?"
            then Ok (List.filter (λ r, String.eqb (Category r) category) (rows w))
            else Err (ErrDriver "SQL logic error")), w') ∧
        same_store w w' ∧ fault_free w'.
Proof.
  unfold fault_free, same_store, db_Query. intros Hff.
  change ("SELECT * FROM " +:+ tableName)%string with "SELECT * FROM products"%string.
  change ("SELECT * FROM products" +:+ " WHERE category = ?")%string
    with "SELECT * FROM products WHERE category = ?"%string.
  destruct w as [t s o [|o1 sc] tr]; simpl in *.
  - unfold_M; simpl.
    destruct (String.eqb query _); [by eexists|].
    destruct (String.eqb query _); by eexists.
  - inversion Hff as [|? ? -> Hff']. unfold_M; simpl.
    destruct (String.eqb query _); [by eexists|].
    destruct (String.eqb query _); by eexists.
Qed.

Lemma ListProducts_eq category w :
  ListProducts category w =
  let '(r, w1) :=
    db_Query (if negb (String.eqb category "")
              then "SELECT * FROM products WHERE category = ?"
              else "SELECT * FROM products") category w in
  match r with
  | Err err => (Err (Errorf "list products" (Some err)), w1)
  | Ok rs => for_rows_Next rs [] w1
  end.
Proof.
  unfold ListProducts. unfold mbind, M_bind.
  change ("SELECT * FROM " +:+ tableName)%string with "SELECT * FROM products"%string.
  change ("SELECT * FROM products" +:+ " WHERE category = ?")%string
    with "SELECT * FROM products WHERE category = ?"%string.
  destruct (db_Query _ category w) as [[rs|e] w1]; done.
Qed.

End Listing.

(** C2.  With the empty string the statement has no [WHERE] clause, and
    when the engine raises no fault the call returns every stored product,
    in storage order, with a nil error; the table is not touched. *)
Theorem ListProducts_no_filter w :
  fault_free w →
  ∃ w', ListProducts "" w = (Ok (rows w), w') ∧ rows w' = rows w.
Proof.
  intros Hff. rewrite ListProducts_eq. simpl.
  destruct (db_Query_fault_free "SELECT * FROM products" "" w Hff)
    as (w1 & -> & Hs1 & Hff1). simpl.
  destruct (for_rows_Next_fault_free (rows w) [] w1 Hff1) as (w2 & -> & Hs2 & _).
  exists w2. split; [done|]. unfold same_store in *. intuition congruence.
Qed.

Lemma ListProducts_no_filter_witness :
  ∃ w', ListProducts "" shop = (Ok [widget; gadget; novel], w') ∧
        rows w' = rows shop.
Proof. apply (ListProducts_no_filter shop). constructor. Defined.

(** C8.  With a category that is not the empty string and an engine that
    raises no fault, the call returns, with a nil error, the stored
    products whose [Category] is that string and no others, in storage
    order; when there is none the result is the empty sequence. *)
Theorem ListProducts_by_category category w :
  category ≠ ""%string →
  fault_free w →
  ∃ products w',
    ListProducts category w = (Ok products, w') ∧
    products = List.filter (λ r, String.eqb (Category r) category) (rows w) ∧
    (∀ p, In p products ↔ In p (rows w) ∧ Category p = category) ∧
    rows w' = rows w.
Proof.
  intros Hne Hff. rewrite ListProducts_eq.
  apply String.eqb_neq in Hne. rewrite Hne. simpl.
  destruct (db_Query_fault_free "SELECT * FROM products WHERE category = ?"
              category w Hff) as (w1 & -> & Hs1 & Hff1). simpl.
  destruct (for_rows_Next_fault_free
              (List.filter (λ r, String.eqb (Category r) category) (rows w))
              [] w1 Hff1) as (w2 & -> & Hs2 & _).
  eexists _, w2. split; [done|]. split; [done|]. split.
  - intros p. simpl. rewrite filter_In, String.eqb_eq. done.
  - unfold same_store in *. intuition congruence.
Qed.

Lemma ListProducts_by_category_witness :
  (∃ products w',
    ListProducts "books" shop = (Ok products, w') ∧
    products = List.filter (λ r, String.eqb (Category r) "books") (rows shop) ∧
    (∀ p, In p products ↔ In p (rows shop) ∧ Category p = "books"%string) ∧
    rows w' = rows shop) ∧
  (ListProducts "books" shop).1 = Ok [novel] ∧
  (ListProducts "toys" shop).1 = Ok [].
Proof.
  split; [|by vm_compute].
  apply (ListProducts_by_category "books" shop); [discriminate|constructor].
Defined.

(** C4.  The engine fails while stepping to the second row: [rows.Next()]
    reports [false], the loop ends, [rows.Err()] is never read, and the
    call returns the one product read so far with a nil error.  A fault of
    the query itself or of a [Scan] is returned as an error. *)
Theorem ListProducts_partial_list :
  let w := shop_with [None; None; None; Some "disk I/O error"] in
  rows w = [widget; gadget; novel] ∧
  (ListProducts "" w).1 = Ok [widget] ∧
  events_during w (ListProducts "" w).2 =
    [Event (CQuery "SELECT * FROM products") None; Event CNext None;
     Event CScan None; Event CNext (Some (ErrDriver "disk I/O error"))] ∧
  (ListProducts "" (shop_with [Some "disk I/O error"])).1 =
    Err (Errorf "list products" (Some (ErrDriver "disk I/O error"))) ∧
  (ListProducts "" (shop_with [None; None; Some "disk I/O error"])).1 =
    Err (Errorf "list products" (Some (ErrDriver "disk I/O error"))).
Proof.
  intros w.
  split; [reflexivity|].
  split; [by vm_compute|].
  split; [by vm_compute|].
  split; by vm_compute.
Qed.

(** ** CreateProduct, GetProduct, UpdateProduct, DeleteProduct *)

Lemma error_eqb_refl : ∀ e, error_eqb e e = true.
Proof.
  fix IH 1. intros [| |msg|msg [e|]]; simpl; rewrite ?String.eqb_refl; try done.
  apply IH.
Qed.

Lemma errors_Is_refl e : errors_Is e e = true.
Proof. destruct e; cbn [errors_Is]; by rewrite error_eqb_refl. Qed.

(** An error wrapped by [Errorf] is found by [errors.Is], and so is every
    error down its chain. *)
Lemma errors_Is_Errorf ctx e target :
  errors_Is e target = true → errors_Is (Errorf ctx (Some e)) target = true.
Proof. intros H. simpl. rewrite H. apply orb_true_r. Qed.

(** C5.  For an ID that is not in the table, [UpdateProduct] and
    [DeleteProduct] make the one driver call of the existence check and
    return the error [GetProduct] returns for that ID, wrapped once more:
    [errors.Is] finds in it [GetProduct]'s error and whatever that one
    holds, which is [sql.ErrNoRows] unless the engine raised a fault on the
    lookup.  The table, the rowid counter and the transaction state are as
    before. *)
Theorem UpdateProduct_DeleteProduct_missing product id w :
  ID product = id →
  find_row id (rows w) = None →
  ∃ e w',
    GetProduct id w = (Err e, w') ∧
    UpdateProduct product w = (Some (Errorf "get product" (Some e)), w') ∧
    DeleteProduct id w = (Some (Errorf "get product" (Some e)), w') ∧
    errors_Is (Errorf "get product" (Some e)) e = true ∧
    (e = Errorf "get product" (Some ErrNoRows) ∧
     errors_Is (Errorf "get product" (Some e)) ErrNoRows = true
     ∨ ∃ msg, hd None (script w) = Some msg ∧
              e = Errorf "get product" (Some (ErrDriver msg))) ∧
    events_during w w' = [Event (CQueryRow id) (Unwrap e)] ∧
    rows w' = rows w ∧ seq w' = seq w ∧ open_tx w' = open_tx w.
Proof.
  intros Hid Hfind.
  assert (∀ e, errors_Is (Errorf "get product" (Some e)) e = true) as His.
  { intros e. apply errors_Is_Errorf, errors_Is_refl. }
  unfold events_during.
  destruct w as [t s o [|[msg|] sc] tr]; simpl in *; eexists _, _;
    (split; [run_M; rewrite ?Hid, ?Hfind; simpl; reflexivity|]);
    (split; [run_M; rewrite ?Hid, ?Hfind; simpl; reflexivity|]);
    (split; [run_M; rewrite ?Hid, ?Hfind; simpl; reflexivity|]);
    (split; [apply His|]); simpl; rewrite drop_trace; eauto 10.
Qed.

Lemma UpdateProduct_DeleteProduct_missing_witness :
  ∃ e w',
    GetProduct 7 shop = (Err e, w') ∧
    UpdateProduct (mkProduct 7 "Ghost" 1%float 1 "none") shop =
      (Some (Errorf "get product" (Some e)), w') ∧
    DeleteProduct 7 shop = (Some (Errorf "get product" (Some e)), w') ∧
    errors_Is (Errorf "get product" (Some e)) e = true ∧
    (e = Errorf "get product" (Some ErrNoRows) ∧
     errors_Is (Errorf "get product" (Some e)) ErrNoRows = true
     ∨ ∃ msg, hd None (script shop) = Some msg ∧
              e = Errorf "get product" (Some (ErrDriver msg))) ∧
    events_during shop w' = [Event (CQueryRow 7) (Unwrap e)] ∧
    rows w' = rows shop ∧ seq w' = seq shop ∧ open_tx w' = open_tx shop.
Proof.
  apply (UpdateProduct_DeleteProduct_missing
           (mkProduct 7 "Ghost" 1%float 1 "none") 7 shop); reflexivity.
Defined.




Lemma UpdateProduct_inv product w w' :
  UpdateProduct product w = (None, w') →
  is_Some (find_row (ID product) (rows w)) ∧
  rows w' = map (update_row product) (rows w) ∧
  seq w' = seq w ∧ open_tx w' = open_tx w.
Proof.
  unfold UpdateProduct, GetProduct, db_QueryRow_Scan, db_Exec_update. unfold_M.
  destruct w as [t s o sc tr]; simpl.
  destruct sc as [|[m1|] [|[m2|] sc]]; simpl;
    destruct (find_row (ID product) t) eqn:E; simpl;
    intros [= <-]; simpl; eauto.
Qed.

Lemma DeleteProduct_inv id w w' :
  DeleteProduct id w = (None, w') →
  is_Some (find_row id (rows w)) ∧
  rows w' = List.filter (λ r, negb (ID r =? id)) (rows w) ∧
  seq w' = seq w ∧ open_tx w' = open_tx w.
Proof.
  unfold DeleteProduct, GetProduct, db_QueryRow_Scan, db_Exec_delete. unfold_M.
  destruct w as [t s o sc tr]; simpl.
  destruct sc as [|[m1|] [|[m2|] sc]]; simpl;
    destruct (find_row id t) eqn:E; simpl;
    intros [= <-]; simpl; eauto.
Qed.

(** C10.  A successful [UpdateProduct] rewrites the row of its ID and no
    other: the IDs of the table are the same, in the same order, the row
    of that ID is the product passed in, and every row of another ID is
    in the table after the call exactly when it was before.  A successful
    [DeleteProduct] removes the row of its ID and leaves every row of
    another ID as it was. *)
Theorem UpdateProduct_DeleteProduct_frame :
  (∀ product w w',
     UpdateProduct product w = (None, w') →
     map ID (rows w') = map ID (rows w) ∧
     find_row (ID product) (rows w') = Some product ∧
     (∀ id, id ≠ ID product → find_row id (rows w') = find_row id (rows w)) ∧
     (∀ r, ID r ≠ ID product → In r (rows w') ↔ In r (rows w))) ∧
  (∀ id w w',
     DeleteProduct id w = (None, w') →
     find_row id (rows w') = None ∧
     (∀ id', id' ≠ id → find_row id' (rows w') = find_row id' (rows w)) ∧
     (∀ r, ID r ≠ id → In r (rows w') ↔ In r (rows w))).
Proof.
  split.
  - intros product w w' H.
    apply UpdateProduct_inv in H as ([p Hp] & -> & _).
    split; [|split; [|split]].
    + rewrite map_map. apply map_ext. intros r. apply ID_update_row.
    + rewrite find_row_map, Hp by apply ID_update_row. simpl. f_equal.
      unfold update_row. rewrite (find_row_ID _ _ _ Hp), Z.eqb_refl.
      by destruct product.
    + intros id Hne. rewrite find_row_map by apply ID_update_row.
      destruct (find_row id (rows w)) as [r|] eqn:E; [|done]. simpl.
      rewrite update_row_other; [done|].
      rewrite (find_row_ID _ _ _ E). done.
    + intros r Hne. rewrite in_map_iff. split.
      * intros (r0 & <- & Hin). rewrite ID_update_row in Hne.
        by rewrite update_row_other.
      * intros Hin. exists r. by rewrite update_row_other.
  - intros id w w' H.
    apply DeleteProduct_inv in H as (_ & -> & _).
    split; [|split].
    + apply find_row_filter_eq.
    + intros id' Hne. by apply find_row_filter_ne.
    + intros r Hne. rewrite filter_In.
      destruct (Z.eqb_spec (ID r) id); [done|]. simpl. tauto.
Qed.

Lemma UpdateProduct_DeleteProduct_frame_witness :
  let product := mkProduct 2 "Gadget Pro" 29.5%float 8 "tools" in
  (UpdateProduct product shop).1 = None ∧
  rows (UpdateProduct product shop).2 = [widget; product; novel] ∧
  (∀ id, id ≠ 2 →
     find_row id (rows (UpdateProduct product shop).2) = find_row id (rows shop)) ∧
  (DeleteProduct 2 shop).1 = None ∧
  rows (DeleteProduct 2 shop).2 = [widget; novel] ∧
  (∀ id', id' ≠ 2 →
     find_row id' (rows (DeleteProduct 2 shop).2) = find_row id' (rows shop)).
Proof.
  intros product.
  split; [reflexivity|]. split; [reflexivity|]. split.
  { apply (proj1 UpdateProduct_DeleteProduct_frame product shop
             (UpdateProduct product shop).2). reflexivity. }
  split; [reflexivity|]. split; [reflexivity|].
  apply (proj2 UpdateProduct_DeleteProduct_frame 2 shop
           (DeleteProduct 2 shop).2). reflexivity.
Defined.

(** * Further properties of the store *)

(** ** CreateProduct *)

Lemma CreateProduct_cases product w product' err w' :
  CreateProduct product w = ((product', err), w') →
  let id := Z.max (max_rowid (rows w)) (seq w) + 1 in
  let row := mkProduct id (Name product) (Price product) (Quantity product)
               (Category product) in
  open_tx w' = open_tx w ∧
  ((∃ cause, err = Some (Errorf "insert product" (Some cause)) ∧
      product' = product ∧ rows w' = rows w ∧ seq w' = seq w ∧
      events_during w w' = [Event CExecInsert (Some cause)]) ∨
   (∃ cause, err = Some (Errorf "get product id" (Some cause)) ∧
      product' = set_ID 0 product ∧ rows w' = rows w ++ [row] ∧ seq w' = id ∧
      events_during w w' =
        [Event CExecInsert None; Event CLastInsertId (Some cause)]) ∨
   (err = None ∧ product' = row ∧ rows w' = rows w ++ [row] ∧ seq w' = id ∧
      events_during w w' = [Event CExecInsert None; Event CLastInsertId None])).
Proof.
  unfold CreateProduct, LastInsertId, db_Exec_insert, events_during, set_ID.
  unfold_M.
  destruct w as [t s o sc tr]; simpl.
  destruct sc as [|[m1|] [|[m2|] sc]]; simpl;
    destruct (Z.eqb_spec (Z.max (max_rowid t) s) max_int64) as [E|E]; simpl;
    intros [= <- <- <-]; simpl; rewrite <- ?app_assoc, drop_trace;
    (split; [done|]); eauto 10.
Qed.





(** ** What each operation can do to the store *)

Lemma UpdateProduct_cases product w ret w' :
  UpdateProduct product w = (ret, w') →
  seq w' = seq w ∧ open_tx w' = open_tx w ∧
  ((∃ cause, ret = Some (Errorf "get product"
                           (Some (Errorf "get product" (Some cause)))) ∧
      rows w' = rows w ∧
      events_during w w' = [Event (CQueryRow (ID product)) (Some cause)] ∧
      (cause = ErrNoRows ∧ find_row (ID product) (rows w) = None ∨
       ∃ msg, cause = ErrDriver msg)) ∨
   (∃ msg, ret = Some (Errorf "update product" (Some (ErrDriver msg))) ∧
      rows w' = rows w ∧ is_Some (find_row (ID product) (rows w)) ∧
      events_during w w' =
        [Event (CQueryRow (ID product)) None;
         Event (CExecUpdate (ID product)) (Some (ErrDriver msg))]) ∨
   (ret = None ∧ is_Some (find_row (ID product) (rows w)) ∧
      rows w' = map (update_row product) (rows w) ∧
      events_during w w' =
        [Event (CQueryRow (ID product)) None;
         Event (CExecUpdate (ID product)) None])).
Proof.
  unfold UpdateProduct, GetProduct, db_QueryRow_Scan, db_Exec_update,
    events_during. unfold_M.
  destruct w as [t s o sc tr]; simpl.
  destruct sc as [|[m1|] [|[m2|] sc]]; simpl;
    destruct (find_row (ID product) t) eqn:E; simpl;
    intros [= <- <-]; simpl; rewrite <- ?app_assoc, drop_trace;
    (split; [done|]); (split; [done|]); eauto 12.
Qed.

Lemma DeleteProduct_cases id w ret w' :
  DeleteProduct id w = (ret, w') →
  seq w' = seq w ∧ open_tx w' = open_tx w ∧
  ((∃ cause, ret = Some (Errorf "get product"
                           (Some (Errorf "get product" (Some cause)))) ∧
      rows w' = rows w ∧
      events_during w w' = [Event (CQueryRow id) (Some cause)] ∧
      (cause = ErrNoRows ∧ find_row id (rows w) = None ∨
       ∃ msg, cause = ErrDriver msg)) ∨
   (∃ msg, ret = Some (Errorf "delete product" (Some (ErrDriver msg))) ∧
      rows w' = rows w ∧ is_Some (find_row id (rows w)) ∧
      events_during w w' =
        [Event (CQueryRow id) None;
         Event (CExecDelete id) (Some (ErrDriver msg))]) ∨
   (ret = None ∧ is_Some (find_row id (rows w)) ∧
      rows w' = List.filter (λ r, negb (ID r =? id)) (rows w) ∧
      events_during w w' =
        [Event (CQueryRow id) None; Event (CExecDelete id) None])).
Proof.
  unfold DeleteProduct, GetProduct, db_QueryRow_Scan, db_Exec_delete,
    events_during. unfold_M.
  destruct w as [t s o sc tr]; simpl.
  destruct sc as [|[m1|] [|[m2|] sc]]; simpl;
    destruct (find_row id t) eqn:E; simpl;
    intros [= <- <-]; simpl; rewrite <- ?app_assoc, drop_trace;
    (split; [done|]); (split; [done|]); eauto 12.
Qed.

Lemma db_Query_inv query category w r w' :
  db_Query query category w = (r, w') →
  same_store w w' ∧ script w' = tl (script w) ∧
  trace w' = trace w ++ [Event (CQuery query) (err_of r)] ∧
  match r with
  | Ok rs =>
      query = "SELECT * FROM products"%string ∧ rs = rows w ∨
      query = "SELECT * FROM products WHERE category = ?"%string ∧
      rs = List.filter (λ r, String.eqb (Category r) category) (rows w)
  | Err e => ∃ msg, e = ErrDriver msg
  end.
Proof.
  unfold db_Query, same_store. unfold_M.
  change ("SELECT * FROM " +:+ tableName +:+ " WHERE category = ?")%string
    with "SELECT * FROM products WHERE category = ?"%string.
  change ("SELECT * FROM " +:+ tableName)%string with "SELECT * FROM products"%string.
  destruct (String.eqb_spec query "SELECT * FROM products");
    [|destruct (String.eqb_spec query
                  "SELECT * FROM products WHERE category = ?")];
    destruct w as [t s o [|[msg|] sc] tr]; simpl;
    intros [= <- <-]; simpl; repeat split; eauto.
Qed.

Lemma rows_Next_inv rs w more w' :
  rows_Next rs w = (more, w') →
  same_store w w' ∧ script w' = tl (script w) ∧
  ∃ o, trace w' = trace w ++ [Event CNext o] ∧
    (o = None ∧ more = negb (bool_decide (rs = [])) ∨
     ∃ msg, o = Some (ErrDriver msg) ∧ more = false).
Proof.
  unfold rows_Next, same_store. unfold_M.
  destruct w as [t s o [|[msg|] sc] tr]; simpl;
    intros [= <- <-]; simpl; repeat split; eauto 8.
Qed.

Lemma rows_Scan_inv current w r w' :
  rows_Scan current w = (r, w') →
  same_store w w' ∧ script w' = tl (script w) ∧
  trace w' = trace w ++ [Event CScan (err_of r)] ∧
  match r with
  | Ok p => p = current
  | Err e => ∃ msg, e = ErrDriver msg
  end.
Proof.
  unfold rows_Scan, same_store. unfold_M.
  destruct w as [t s o [|[msg|] sc] tr]; simpl;
    intros [= <- <-]; simpl; repeat split; eauto.
Qed.

Lemma same_store_trans w1 w2 w3 :
  same_store w1 w2 → same_store w2 w3 → same_store w1 w3.
Proof. unfold same_store. intuition congruence. Qed.

(** The loop, whatever the engine does: it never touches the store; an
    error is a [Scan] fault; a list is what had been read, a prefix of the
    result set, and all of it when no call failed. *)
Lemma for_rows_Next_spec rs : ∀ products w r w',
  for_rows_Next rs products w = (r, w') →
  same_store w w' ∧
  ∃ evs, trace w' = trace w ++ evs ∧
    match r with
    | Ok ps => ∃ k, ps = products ++ take k rs ∧
                    (existsb failed evs = false → ps = products ++ rs)
    | Err e => ∃ msg, e = Errorf "list products" (Some (ErrDriver msg)) ∧
                      existsb failed evs = true
    end.
Proof.
  induction rs as [|current rest IH]; intros products w r w';
    rewrite for_rows_Next_eq.
  - destruct (rows_Next [] w) as [more w1] eqn:HN.
    apply rows_Next_inv in HN as (Hs1 & _ & o & Ht1 & HN).
    destruct more; intros [= <- <-]; (split; [done|]);
      eexists; (split; [done|]); exists 0%nat; simpl; by rewrite app_nil_r.
  - destruct (rows_Next (current :: rest) w) as [more w1] eqn:HN.
    apply rows_Next_inv in HN as (Hs1 & _ & o & Ht1 & HN).
    destruct more.
    + destruct (rows_Scan current w1) as [r2 w2] eqn:HS.
      apply rows_Scan_inv in HS as (Hs2 & _ & Ht2 & HS).
      destruct HN as [[-> _]|(msg & _ & [=])].
      destruct r2 as [p|e].
      * subst p. intros H. apply IH in H as (Hs3 & evs & Ht3 & H).
        split; [eauto using same_store_trans|].
        exists (Event CNext None :: Event CScan None :: evs).
        split; [by rewrite Ht3, Ht2, Ht1, <- !app_assoc|].
        destruct r as [ps|e].
        -- destruct H as (k & -> & Hall). exists (S k).
           rewrite <- app_assoc. split; [done|]. simpl. intros Hf.
           specialize (Hall Hf). rewrite <- !app_assoc in Hall. exact Hall.
        -- done.
      * destruct HS as [msg ->]. intros [= <- <-].
        split; [eauto using same_store_trans|].
        eexists. split; [by rewrite Ht2, Ht1, <- !app_assoc|].
        exists msg. done.
    + intros [= <- <-]. split; [done|].
      eexists. split; [done|]. exists 0%nat. rewrite app_nil_r.
      split; [done|]. simpl.
      destruct HN as [[-> [=]]|(msg & -> & _)]. done.
Qed.

(** ** ListProducts, whatever the engine does *)

Lemma ListProducts_spec category w r w' :
  ListProducts category w = (r, w') →
  same_store w w' ∧
  ∃ evs, events_during w w' = evs ∧
    match r with
    | Ok products =>
        ∃ k, products = take k (select_rows category (rows w)) ∧
             (existsb failed evs = false →
              products = select_rows category (rows w))
    | Err e => ∃ msg, e = Errorf "list products" (Some (ErrDriver msg))
    end.
Proof.
  rewrite ListProducts_eq.
  destruct (db_Query _ category w) as [r1 w1] eqn:HQ.
  apply db_Query_inv in HQ as (Hs1 & _ & Ht1 & HQ).
  destruct r1 as [rs|e]; simpl in Ht1.
  - assert (rs = select_rows category (rows w)) as ->.
    { unfold select_rows.
      destruct (String.eqb category ""); simpl in HQ;
        destruct HQ as [[HQ ->]|[HQ ->]]; done. }
    intros H. apply for_rows_Next_spec in H as (Hs2 & evs & Ht2 & H).
    split; [eauto using same_store_trans|].
    eexists. split.
    { apply events_during_app. by rewrite Ht2, Ht1, <- app_assoc. }
    destruct r as [ps|e].
    + destruct H as (k & -> & Hall). by exists k.
    + destruct H as (msg & -> & _). by exists msg.
  - intros [= <- <-]. split; [done|]. eexists. split; [done|].
    destruct HQ as [msg ->]. by exists msg.
Qed.

(** X3.  [ListProducts] never changes the store.  When it returns a list,
    the list is a prefix, in storage order, of the rows its category
    selects, and it is all of them when no driver call failed during the
    call.  When it returns an error, the error wraps an engine fault under
    "list products". *)
Theorem ListProducts_any_engine category w r w' :
  ListProducts category w = (r, w') →
  rows w' = rows w ∧ seq w' = seq w ∧ open_tx w' = open_tx w ∧
  match r with
  | Ok products =>
      products `prefix_of` select_rows category (rows w) ∧
      (existsb failed (events_during w w') = false →
       products = select_rows category (rows w))
  | Err e => ∃ msg, e = Errorf "list products" (Some (ErrDriver msg)) ∧
                    errors_Is e (ErrDriver msg) = true
  end.
Proof.
  intros HL. apply ListProducts_spec in HL as ((Hr & Hs & Ho) & evs & -> & H).
  do 3 (split; [done|]).
  destruct r as [ps|e].
  - destruct H as (k & -> & Hall). split; [apply prefix_take|done].
  - destruct H as (msg & ->). exists msg. split; [done|].
    apply errors_Is_Errorf, errors_Is_refl.
Qed.

Lemma ListProducts_any_engine_witness :
  let w := shop_with [None; None; None; None; None; Some "interrupted"] in
  rows (ListProducts "tools" w).2 = rows w ∧
  seq (ListProducts "tools" w).2 = seq w ∧
  open_tx (ListProducts "tools" w).2 = open_tx w ∧
  match (ListProducts "tools" w).1 with
  | Ok products =>
      products `prefix_of` select_rows "tools" (rows w) ∧
      (existsb failed (events_during w (ListProducts "tools" w).2) = false →
       products = select_rows "tools" (rows w))
  | Err e => ∃ msg, e = Errorf "list products" (Some (ErrDriver msg)) ∧
                    errors_Is e (ErrDriver msg) = true
  end.
Proof.
  intros w.
  apply (ListProducts_any_engine "tools" w). apply surjective_pairing.
Defined.

(** ** Invariants over any sequence of calls *)

Lemma map_ID_apply_updates kvs t : map ID (apply_updates kvs t) = map ID t.
Proof.
  unfold apply_updates. revert t.
  induction kvs as [|[id q] kvs IH]; intros t; simpl; [done|].
  rewrite IH, map_map. apply map_ext. intros r. apply ID_update_quantity.
Qed.

Lemma NoDup_map_ID_filter (f : Product → bool) t :
  NoDup (map ID t) → NoDup (map ID (List.filter f t)).
Proof.
  induction t as [|r t IH]; simpl; [done|].
  intros [Hn Hnd]%NoDup_cons. destruct (f r); simpl; [|by apply IH].
  apply NoDup_cons. split; [|by apply IH].
  intros Hin%list_elem_of_In%in_map_iff. destruct Hin as (x & Hx & Hin).
  apply filter_In in Hin as [Hin _]. apply Hn.
  rewrite <- Hx. apply list_elem_of_In, in_map. done.
Qed.

(** One call: the rowid counter never goes down and unique IDs stay
    unique, on success and on every failure. *)
Lemma run_op_invariant o w :
  seq w ≤ seq (run_op o w) ∧ (unique_ids w → unique_ids (run_op o w)).
Proof.
  unfold unique_ids. destruct o as [product|id|product|id|category|kvs]; simpl.
  - destruct (CreateProduct product w) as [[product' err] w'] eqn:H. simpl.
    apply CreateProduct_cases in H as (_ & H).
    assert (∀ r, In r (rows w) →
              ID r < Z.max (max_rowid (rows w)) (seq w) + 1) as Hlt.
    { intros r Hin. apply max_rowid_ge in Hin. lia. }
    assert (NoDup (map ID (rows w)) →
            NoDup (map ID (rows w ++
              [mkProduct (Z.max (max_rowid (rows w)) (seq w) + 1)
                 (Name product) (Price product) (Quantity product)
                 (Category product)]))) as Hnd.
    { rewrite map_app. simpl. intros Hnd.
      apply NoDup_app. split; [done|]. split; [|apply NoDup_singleton].
      intros id Hin ->%list_elem_of_singleton.
      apply list_elem_of_In, in_map_iff in Hin as (r & Hid & Hin).
      specialize (Hlt r Hin). lia. }
    destruct H as [(cause & _ & _ & -> & -> & _)
                  |[(cause & _ & _ & -> & -> & _)|(_ & _ & -> & -> & _)]];
      (split; [lia|done]).
  - destruct (GetProduct id w) as [r w'] eqn:H. simpl.
    apply GetProduct_inv in H as (-> & -> & _). done.
  - destruct (UpdateProduct product w) as [ret w'] eqn:H. simpl.
    apply UpdateProduct_cases in H as (-> & _ & H). split; [done|].
    destruct H as [(cause & _ & -> & _)|[(msg & _ & -> & _)|(_ & _ & -> & _)]];
      try done.
    rewrite map_map.
    rewrite (map_ext (λ x, ID (update_row product x)) ID); [done|].
    intros r. apply ID_update_row.
  - destruct (DeleteProduct id w) as [ret w'] eqn:H. simpl.
    apply DeleteProduct_cases in H as (-> & _ & H). split; [done|].
    destruct H as [(cause & _ & -> & _)|[(msg & _ & -> & _)|(_ & _ & -> & _)]];
      try done.
    apply NoDup_map_ID_filter.
  - destruct (ListProducts category w) as [r w'] eqn:H. simpl.
    apply ListProducts_spec in H as ((-> & -> & _) & _). done.
  - destruct (BatchUpdateInventory kvs w) as [ret w'] eqn:H. simpl.
    apply BatchUpdateInventory_spec in H as (-> & evs & _ & H).
    split; [done|].
    destruct H as [e _ -> _| _ _ _ -> _|e _ _ -> _|ctx _ _ _ -> _|e _ _ _ -> _];
      try done.
    by rewrite map_ID_apply_updates.
Qed.

Lemma run_ops_seq ops : ∀ w, seq w ≤ seq (run_ops ops w).
Proof.
  unfold run_ops. induction ops as [|o ops IH]; intros w; simpl; [lia|].
  pose proof (proj1 (run_op_invariant o w)). specialize (IH (run_op o w)). lia.
Qed.

Lemma shop_with_unique faults : unique_ids (shop_with faults).
Proof.
  unfold unique_ids. simpl. apply (bool_decide_unpack _). by vm_compute.
Qed.

(** X4.  Whatever sequence of calls a caller makes, and whichever of them
    fail, a table whose IDs are unique keeps unique IDs. *)
Theorem unique_ids_preserved ops w :
  unique_ids w → unique_ids (run_ops ops w).
Proof.
  unfold run_ops. revert w.
  induction ops as [|o ops IH]; intros w Hu; simpl; [done|].
  apply IH. by apply run_op_invariant.
Qed.

Lemma unique_ids_preserved_witness :
  unique_ids
    (run_ops [OpCreate (mkProduct 0 "Lamp" 24.5%float 4 "home");
              OpBatch [(1, 3); (4, 9)]; OpDelete 2;
              OpUpdate (mkProduct 3 "Novel" 11.0%float 6 "books");
              OpCreate (mkProduct 0 "Desk" 120.0%float 1 "home");
              OpList "home"; OpGet 5]
       (shop_with [None; None; None; None; Some "database is locked"])).
Proof.
  apply unique_ids_preserved. apply shop_with_unique.
Defined.

(** X5.  An identifier [CreateProduct] has assigned is never assigned
    again, whatever the caller does in between, deleting the product
    included: a later successful [CreateProduct] gets a larger one. *)
Theorem CreateProduct_never_reuses_ID p1 p1' w w1 ops p2 p2' w3 :
  CreateProduct p1 w = ((p1', None), w1) →
  CreateProduct p2 (run_ops ops w1) = ((p2', None), w3) →
  ID p1' < ID p2'.
Proof.
  intros H1 H2.
  apply CreateProduct_cases in H1 as (_ & H1).
  apply CreateProduct_cases in H2 as (_ & H2).
  destruct H1 as [(c & [=] & _)|[(c & [=] & _)|(_ & -> & _ & Hs1 & _)]].
  destruct H2 as [(c & [=] & _)|[(c & [=] & _)|(_ & -> & _ & Hs2 & _)]].
  simpl. pose proof (run_ops_seq ops w1). lia.
Qed.

Lemma CreateProduct_never_reuses_ID_witness :
  let lamp := mkProduct 0 "Lamp" 24.5%float 4 "home" in
  let desk := mkProduct 0 "Desk" 120.0%float 1 "home" in
  let w1 := (CreateProduct lamp shop).2 in
  let w2 := run_ops [OpDelete 4] w1 in
  rows w2 = rows shop ∧
  ID (CreateProduct lamp shop).1.1 = 4 ∧
  ID (CreateProduct desk w2).1.1 = 5 ∧
  ID (CreateProduct lamp shop).1.1 < ID (CreateProduct desk w2).1.1.
Proof.
  intros lamp desk w1 w2.
  split; [reflexivity|]. split; [reflexivity|]. split; [reflexivity|].
  apply (CreateProduct_never_reuses_ID lamp _ shop w1 [OpDelete 4] desk _
           (CreateProduct desk w2).2); reflexivity.
Defined.

Lemma filter_fresh_row id t row :
  (∀ r, In r t → ID r < id) → ID row = id →
  List.filter (λ r, negb (ID r =? id)) (t ++ [row]) = t.
Proof.
  intros Hlt Hid. rewrite List.filter_app. simpl.
  rewrite Hid, Z.eqb_refl. simpl. rewrite app_nil_r.
  induction t as [|r t IH]; simpl; [done|].
  assert (ID r < id) by (apply Hlt; by left).
  destruct (Z.eqb_spec (ID r) id); [lia|]. simpl. f_equal.
  apply IH. intros x Hx. apply Hlt. by right.
Qed.

(** X6.  Deleting the product [CreateProduct] has just stored gives back
    the table as it was before the creation, row for row; the rowid
    counter is not given back. *)
Theorem CreateProduct_DeleteProduct product w product' w1 w2 :
  CreateProduct product w = ((product', None), w1) →
  DeleteProduct (ID product') w1 = (None, w2) →
  rows w2 = rows w ∧ seq w2 = ID product' ∧ seq w < seq w2.
Proof.
  intros H1 H2.
  apply CreateProduct_cases in H1 as (_ & H1).
  destruct H1 as [(c & [=] & _)|[(c & [=] & _)|(_ & -> & Hr & Hs & _)]].
  simpl in *.
  apply DeleteProduct_cases in H2 as (Hs2 & _ & H2).
  destruct H2 as [(c & [=] & _)|[(msg & [=] & _)|(_ & _ & -> & _)]].
  split; [|lia].
  rewrite Hr. apply filter_fresh_row; [|done].
  intros r Hin. apply max_rowid_ge in Hin. lia.
Qed.

Lemma CreateProduct_DeleteProduct_witness :
  let lamp := mkProduct 0 "Lamp" 24.5%float 4 "home" in
  let w1 := (CreateProduct lamp shop).2 in
  let w2 := (DeleteProduct 4 w1).2 in
  rows w2 = rows shop ∧ seq w2 = 4 ∧ seq shop < seq w2.
Proof.
  intros lamp w1 w2.
  apply (CreateProduct_DeleteProduct lamp shop (CreateProduct lamp shop).1.1 w1 w2);
    reflexivity.
Defined.

(** ** GetProduct *)

Lemma GetProduct_quiet id w :
  quiet w →
  ∃ w', GetProduct id w =
          (match find_row id (rows w) with
           | Some p => Ok p
           | None => Err (Errorf "get product" (Some ErrNoRows))
           end, w') ∧ same_store w w'.
Proof.
  intros Hq. destruct (GetProduct id w) as [r w'] eqn:H. exists w'.
  apply GetProduct_inv in H as (Hr & Hs & Ho & _ & o & _ & H).
  split; [|done]. f_equal. unfold quiet in Hq.
  destruct r as [p|e].
  - destruct H as (_ & -> & _). done.
  - destruct H as [-> [(-> & -> & _)|(msg & _ & H)]]; [done|congruence].
Qed.

(** X7.  [GetProduct] makes one driver call and never changes the store.
    A product it returns is a stored row with the ID asked for.  An error
    it returns is [sql.ErrNoRows] to [errors.Is] exactly when no row has
    that ID and the engine raised no fault: "not found" cannot be taken for
    a storage fault, nor the other way round. *)
Theorem GetProduct_result id w r w' :
  GetProduct id w = (r, w') →
  rows w' = rows w ∧ seq w' = seq w ∧ open_tx w' = open_tx w ∧
  length (events_during w w') = 1%nat ∧
  match r with
  | Ok p => ID p = id ∧ In p (rows w)
  | Err e =>
      errors_Is e ErrNoRows = true ↔ find_row id (rows w) = None ∧ quiet w
  end.
Proof.
  intros H. apply GetProduct_inv in H as (Hr & Hs & Ho & _ & o & Ht & H).
  do 3 (split; [done|]).
  rewrite (events_during_app _ _ _ Ht). split; [done|].
  destruct r as [p|e].
  - destruct H as (_ & H & _). eauto using find_row_ID, find_row_In.
  - destruct H as [-> [(-> & Hf & Hq)|(msg & -> & Hm)]].
    + done.
    + split; [done|]. intros [_ Hq]. unfold quiet in Hq. congruence.
Qed.

Lemma GetProduct_result_witness :
  let w := shop_with [Some "database is locked"] in
  rows (GetProduct 7 w).2 = rows w ∧ seq (GetProduct 7 w).2 = seq w ∧
  open_tx (GetProduct 7 w).2 = open_tx w ∧
  length (events_during w (GetProduct 7 w).2) = 1%nat ∧
  match (GetProduct 7 w).1 with
  | Ok p => ID p = 7 ∧ In p (rows w)
  | Err e =>
      errors_Is e ErrNoRows = true ↔ find_row 7 (rows w) = None ∧ quiet w
  end.
Proof.
  intros w. apply (GetProduct_result 7 w). apply surjective_pairing.
Defined.

Lemma find_row_NoDup t r :
  NoDup (map ID t) → In r t → find_row (ID r) t = Some r.
Proof.
  unfold find_row. induction t as [|a t IH]; simpl; [done|].
  intros [Hn Hnd]%NoDup_cons [->|Hin].
  - by rewrite Z.eqb_refl.
  - destruct (Z.eqb_spec (ID a) (ID r)) as [E|E]; [|by apply IH].
    exfalso. apply Hn. rewrite E. by apply list_elem_of_In, in_map.
Qed.

(** X8.  In a table with unique IDs every stored row can be read back:
    [GetProduct] on its ID returns that very row, when the engine raises
    no fault on the lookup. *)
Theorem GetProduct_stored_row r w :
  unique_ids w → In r (rows w) → quiet w →
  ∃ w', GetProduct (ID r) w = (Ok r, w') ∧ rows w' = rows w.
Proof.
  intros Hu Hin Hq.
  destruct (GetProduct_quiet (ID r) w Hq) as (w' & H & Hs & _).
  rewrite (find_row_NoDup _ _ Hu Hin) in H. by exists w'.
Qed.

Lemma GetProduct_stored_row_witness :
  ∃ w', GetProduct (ID novel) shop = (Ok novel, w') ∧ rows w' = rows shop.
Proof.
  apply (GetProduct_stored_row novel shop).
  - apply (shop_with_unique []).
  - simpl. tauto.
  - reflexivity.
Defined.

(** ** UpdateProduct and DeleteProduct *)



(** X10.  After a successful [DeleteProduct] the ID is gone: [GetProduct]
    on it reports [sql.ErrNoRows], and deleting it once more fails on the
    existence check and leaves the table alone. *)
Theorem DeleteProduct_GetProduct id w w1 :
  DeleteProduct id w = (None, w1) →
  quiet w1 →
  ∃ w2,
    GetProduct id w1 = (Err (Errorf "get product" (Some ErrNoRows)), w2) ∧
    DeleteProduct id w1 =
      (Some (Errorf "get product"
               (Some (Errorf "get product" (Some ErrNoRows)))), w2) ∧
    rows w2 = rows w1.
Proof.
  intros H Hq. apply DeleteProduct_inv in H as (_ & Hr & _).
  assert (find_row id (rows w1) = None) as Hf.
  { rewrite Hr. apply find_row_filter_eq. }
  unfold quiet in Hq.
  destruct w1 as [t s o [|[msg|] sc] tr]; simpl in *; try done;
    eexists; (split; [run_M; by rewrite Hf|]);
    (split; [run_M; by rewrite Hf|]); done.
Qed.

Lemma DeleteProduct_GetProduct_witness :
  ∃ w2,
    GetProduct 2 (DeleteProduct 2 shop).2 =
      (Err (Errorf "get product" (Some ErrNoRows)), w2) ∧
    DeleteProduct 2 (DeleteProduct 2 shop).2 =
      (Some (Errorf "get product"
               (Some (Errorf "get product" (Some ErrNoRows)))), w2) ∧
    rows w2 = rows (DeleteProduct 2 shop).2.
Proof. apply (DeleteProduct_GetProduct 2 shop); reflexivity. Defined.

(** X11.  A failing [UpdateProduct] or [DeleteProduct] never changes the
    table, and its error tells the stage: either the existence check
    failed, the write was not attempted and the error wraps the one of
    [GetProduct]; or the row exists, the write itself failed and the error
    wraps the engine's fault under "update product", respectively "delete
    product". *)
Theorem UpdateProduct_DeleteProduct_failure :
  (∀ product w e w',
     UpdateProduct product w = (Some e, w') →
     rows w' = rows w ∧ seq w' = seq w ∧ open_tx w' = open_tx w ∧
     ((∃ cause, e = Errorf "get product"
                      (Some (Errorf "get product" (Some cause))) ∧
         errors_Is e cause = true ∧
         events_during w w' = [Event (CQueryRow (ID product)) (Some cause)]) ∨
      (∃ msg, e = Errorf "update product" (Some (ErrDriver msg)) ∧
         errors_Is e (ErrDriver msg) = true ∧
         is_Some (find_row (ID product) (rows w))))) ∧
  (∀ id w e w',
     DeleteProduct id w = (Some e, w') →
     rows w' = rows w ∧ seq w' = seq w ∧ open_tx w' = open_tx w ∧
     ((∃ cause, e = Errorf "get product"
                      (Some (Errorf "get product" (Some cause))) ∧
         errors_Is e cause = true ∧
         events_during w w' = [Event (CQueryRow id) (Some cause)]) ∨
      (∃ msg, e = Errorf "delete product" (Some (ErrDriver msg)) ∧
         errors_Is e (ErrDriver msg) = true ∧
         is_Some (find_row id (rows w))))).
Proof.
  split.
  - intros product w e w' H.
    apply UpdateProduct_cases in H as (Hs & Ho & H).
    destruct H as [(cause & [= ->] & Hr & Hev & _)
                  |[(msg & [= ->] & Hr & Hf & _)|([=] & _)]];
      do 3 (split; [done|]).
    + left. exists cause. split; [done|]. split; [|done].
      apply errors_Is_Errorf, errors_Is_Errorf, errors_Is_refl.
    + right. exists msg. split; [done|]. split; [|done].
      apply errors_Is_Errorf, errors_Is_refl.
  - intros id w e w' H.
    apply DeleteProduct_cases in H as (Hs & Ho & H).
    destruct H as [(cause & [= ->] & Hr & Hev & _)
                  |[(msg & [= ->] & Hr & Hf & _)|([=] & _)]];
      do 3 (split; [done|]).
    + left. exists cause. split; [done|]. split; [|done].
      apply errors_Is_Errorf, errors_Is_Errorf, errors_Is_refl.
    + right. exists msg. split; [done|]. split; [|done].
      apply errors_Is_Errorf, errors_Is_refl.
Qed.

Lemma UpdateProduct_DeleteProduct_failure_witness :
  let w := shop_with [None; Some "database is locked"] in
  let product := mkProduct 2 "Gadget Pro" 29.5%float 8 "tools" in
  (UpdateProduct product w).1 =
    Some (Errorf "update product" (Some (ErrDriver "database is locked"))) ∧
  rows (UpdateProduct product w).2 = rows w ∧
  (DeleteProduct 2 w).1 =
    Some (Errorf "delete product" (Some (ErrDriver "database is locked"))) ∧
  rows (DeleteProduct 2 w).2 = rows w.
Proof.
  intros w product.
  split; [reflexivity|]. split.
  { apply (proj1 UpdateProduct_DeleteProduct_failure product w
             (Errorf "update product" (Some (ErrDriver "database is locked")))
             (UpdateProduct product w).2). reflexivity. }
  split; [reflexivity|].
  apply (proj2 UpdateProduct_DeleteProduct_failure 2 w
           (Errorf "delete product" (Some (ErrDriver "database is locked")))
           (DeleteProduct 2 w).2). reflexivity.
Defined.

(** ** BatchUpdateInventory, beyond atomicity *)

Lemma apply_updates_map kvs : ∀ t, apply_updates kvs t = map (requantify kvs) t.
Proof.
  unfold apply_updates, requantify.
  induction kvs as [|kv kvs IH]; intros t; simpl.
  - by rewrite map_id.
  - by rewrite IH, map_map.
Qed.

Lemma Product_eq (a b : Product) :
  ID a = ID b → Name a = Name b → Price a = Price b →
  Quantity a = Quantity b → Category a = Category b → a = b.
Proof. destruct a, b. simpl. by intros -> -> -> -> ->. Qed.

(** The order of the pairs does not matter when their keys are distinct. *)
Lemma requantify_Permutation kvs1 kvs2 r :
  NoDup kvs1.*1 → kvs1 ≡ₚ kvs2 → requantify kvs1 r = requantify kvs2 r.
Proof.
  intros Hnd Hperm.
  assert (NoDup kvs2.*1) as Hnd2 by by rewrite <- Hperm.
  destruct (decide (ID r ∈ kvs1.*1)) as [Hin|Hin].
  - apply list_elem_of_fmap in Hin as ([k q] & Hk & Hin). simpl in Hk. subst k.
    destruct (requantify_fields kvs1 r) as (? & ? & ?).
    destruct (requantify_fields kvs2 r) as (? & ? & ?).
    apply Product_eq; try congruence.
    + by rewrite !ID_requantify.
    + rewrite (Quantity_requantify kvs1 r q) by done.
      rewrite (Quantity_requantify kvs2 r q); [done|done|by rewrite <- Hperm].
  - rewrite !requantify_other; [done| |done]. by rewrite <- Hperm.
Qed.

(** X12.  The order in which [range] yields the map does not matter to a
    call that succeeds: with an engine that raises no fault, when the call
    succeeds for one order it succeeds for every order, and the table it
    commits is the same. *)
Theorem BatchUpdateInventory_order_independent (updates : gmap Z Z)
    kvs1 kvs2 w w1 :
  range_of updates kvs1 → range_of updates kvs2 →
  fault_free w →
  BatchUpdateInventory kvs1 w = (None, w1) →
  ∃ w2, BatchUpdateInventory kvs2 w = (None, w2) ∧ rows w2 = rows w1.
Proof.
  unfold range_of. intros Hp1 Hp2 Hff H1.
  assert (kvs1 ≡ₚ kvs2) as Hperm by by rewrite Hp1, Hp2.
  assert (NoDup kvs1.*1) as Hnd.
  { rewrite Hp1. apply NoDup_fst_map_to_list. }
  apply BatchUpdateInventory_spec in H1 as (_ & evs1 & _ & H1).
  inversion H1 as [|_ _ Hall Hr1 _| | |]; subst.
  rewrite Hperm in Hall.
  destruct (BatchUpdateInventory_succeeds kvs2 w Hff Hall) as [w2 H2].
  exists w2. split; [done|].
  apply BatchUpdateInventory_spec in H2 as (_ & evs2 & _ & H2).
  inversion H2 as [|_ _ _ Hr2 _| | |]; subst.
  rewrite Hr1, Hr2, !apply_updates_map. apply map_ext.
  intros r. symmetry. by apply requantify_Permutation.
Qed.

Lemma BatchUpdateInventory_order_independent_witness :
  ∃ w2, BatchUpdateInventory [(1, 3); (2, 0)] shop = (None, w2) ∧
        rows w2 = rows (BatchUpdateInventory [(2, 0); (1, 3)] shop).2.
Proof.
  apply (BatchUpdateInventory_order_independent {[1 := 3; 2 := 0]}
           [(2, 0); (1, 3)] [(1, 3); (2, 0)] shop).
  - unfold range_of. vm_compute. reflexivity.
  - unfold range_of. vm_compute. apply perm_swap.
  - constructor.
  - reflexivity.
Defined.

(** X13.  A successful [BatchUpdateInventory] changes quantities and
    nothing else: the table has the same rows in the same order with the
    same [ID], [Name], [Price] and [Category], the row of an ID that is
    not in the map is as it was, and the rowid counter stands. *)
Theorem BatchUpdateInventory_frame (updates : gmap Z Z) kvs w w' :
  range_of updates kvs →
  BatchUpdateInventory kvs w = (None, w') →
  map ID (rows w') = map ID (rows w) ∧
  map Name (rows w') = map Name (rows w) ∧
  map Price (rows w') = map Price (rows w) ∧
  map Category (rows w') = map Category (rows w) ∧
  (∀ id, updates !! id = None →
         find_row id (rows w') = find_row id (rows w)) ∧
  seq w' = seq w ∧ open_tx w' = None.
Proof.
  unfold range_of. intros Hperm H.
  apply BatchUpdateInventory_spec in H as (Hs & evs & _ & H).
  inversion H as [|_ _ _ Hr Ho| | |]; subst.
  rewrite Hr. split; [apply map_ID_apply_updates|].
  rewrite apply_updates_map, !map_map.
  split; [apply map_ext; intros r; apply requantify_fields|].
  split; [apply map_ext; intros r; apply requantify_fields|].
  split; [apply map_ext; intros r; apply requantify_fields|].
  split; [|done].
  intros id Hid. rewrite <- apply_updates_map, find_row_apply_updates.
  destruct (find_row id (rows w)) as [p|] eqn:Hp; [|done]. simpl. f_equal.
  apply requantify_other. rewrite (find_row_ID _ _ _ Hp).
  intros Hin. apply list_elem_of_fmap in Hin as ([k q] & Hk & Hin).
  simpl in Hk. subst k. rewrite Hperm in Hin.
  apply elem_of_map_to_list in Hin.
  discriminate (eq_trans (eq_sym Hid) Hin).
Qed.

Lemma BatchUpdateInventory_frame_witness :
  let w' := (BatchUpdateInventory [(2, 0); (1, 3)] shop).2 in
  map ID (rows w') = map ID (rows shop) ∧
  map Name (rows w') = map Name (rows shop) ∧
  map Price (rows w') = map Price (rows shop) ∧
  map Category (rows w') = map Category (rows shop) ∧
  (∀ id, ({[1 := 3; 2 := 0]} : gmap Z Z) !! id = None →
         find_row id (rows w') = find_row id (rows shop)) ∧
  seq w' = seq shop ∧ open_tx w' = None.
Proof.
  intros w'.
  apply (BatchUpdateInventory_frame {[1 := 3; 2 := 0]} [(2, 0); (1, 3)] shop).
  - unfold range_of. vm_compute. reflexivity.
  - reflexivity.
Defined.

Lemma range_updates_error kvs : ∀ w e w',
  range_updates kvs w = (Some e, w') →
  ∃ evs err, trace w' = trace w ++ evs ++ [Event CRollback err] ∧
    match err with
    | Some cause => e = Errorf "rollback" (Some cause)
    | None => Unwrap e = None
    end.
Proof.
  induction kvs as [|[id q] kvs IH]; intros w e w' H; [done|].
  rewrite range_updates_cons in H.
  destruct (GetProduct id w) as [r w1] eqn:HG.
  apply GetProduct_inv in HG as (_ & _ & _ & _ & o & Ht1 & _).
  destruct r as [p|e1].
  - destruct (tx_Exec_update q id w1) as [r2 w2] eqn:HE.
    apply tx_Exec_update_inv in HE as (_ & _ & _ & Ht2 & _).
    destruct r2 as [u|e2].
    + apply IH in H as (evs & err & Ht & H).
      exists (Event (CQueryRow id) o :: Event (CTxExec id q) None :: evs), err.
      split; [|done]. rewrite Ht, Ht2, Ht1. simpl. by rewrite <- !app_assoc.
    + destruct (tx_Rollback w2) as [err w3] eqn:HR.
      apply tx_Rollback_inv in HR as (_ & _ & _ & Ht3 & _).
      injection H as <- <-.
      exists [Event (CQueryRow id) o; Event (CTxExec id q) (Some e2)], err.
      split; [|by destruct err]. rewrite Ht3, Ht2, Ht1. simpl.
      by rewrite <- !app_assoc.
  - destruct (tx_Rollback w1) as [err w2] eqn:HR.
    apply tx_Rollback_inv in HR as (_ & _ & _ & Ht2 & _).
    injection H as <- <-.
    exists [Event (CQueryRow id) o], err.
    split; [|by destruct err]. rewrite Ht2, Ht1. by rewrite <- !app_assoc.
Qed.

(** X14.  Every error [BatchUpdateInventory] returns is decided by the
    last driver call it made.  When that call failed, a begin, a rollback
    or a commit, the error wraps its error under the stage's name and
    [errors.Is] finds it.  When that call is a rollback that went through,
    the error wraps nothing.  There is no other case. *)
Theorem BatchUpdateInventory_error_cause kvs w e w' :
  BatchUpdateInventory kvs w = (Some e, w') →
  ∃ evs c err, events_during w w' = evs ++ [Event c err] ∧
    match err with
    | Some cause =>
        errors_Is e cause = true ∧
        (c = CBegin ∧ e = Errorf "begin tx" (Some cause) ∨
         c = CRollback ∧ e = Errorf "rollback" (Some cause) ∨
         c = CCommit ∧ e = Errorf "commit" (Some cause))
    | None => c = CRollback ∧ Unwrap e = None
    end.
Proof.
  rewrite BatchUpdateInventory_eq.
  destruct (db_Begin w) as [r w1] eqn:HB.
  apply db_Begin_inv in HB as (_ & _ & _ & Ht1 & _).
  destruct r as [u|e1]; simpl in Ht1.
  2: { intros [= <- <-]. exists [], CBegin, (Some e1).
       split; [by apply events_during_app|].
       split; [apply errors_Is_Errorf, errors_Is_refl|by left]. }
  destruct (range_updates kvs w1) as [[e2|] w2] eqn:HL.
  - intros [= <- <-].
    apply range_updates_error in HL as (evs & err & Ht2 & HL).
    exists (Event CBegin None :: evs), CRollback, err.
    split. { apply events_during_app. rewrite Ht2, Ht1. by rewrite <- !app_assoc. }
    destruct err as [cause|]; [|done]. subst e2.
    split; [apply errors_Is_Errorf, errors_Is_refl|]. right. by left.
  - apply range_updates_spec in HL as (_ & _ & evs & Ht2 & _).
    destruct (tx_Commit w2) as [err w3] eqn:HC.
    apply tx_Commit_inv in HC as (_ & _ & Ht3 & _).
    destruct err as [cause|]; intros [= <- <-].
    exists (Event CBegin None :: evs), CCommit, (Some cause).
    split. { apply events_during_app. rewrite Ht3, Ht2, Ht1.
             by rewrite <- !app_assoc. }
    split; [apply errors_Is_Errorf, errors_Is_refl|]. right. by right.
Qed.

Lemma BatchUpdateInventory_error_cause_witness :
  let w := shop_with [None; None; None; None; None; Some "disk I/O error"] in
  (BatchUpdateInventory [(1, 3); (2, 0)] w).1 =
    Some (Errorf "commit" (Some (ErrDriver "disk I/O error"))) ∧
  ∃ evs c err,
    events_during w (BatchUpdateInventory [(1, 3); (2, 0)] w).2 =
      evs ++ [Event c err] ∧
    match err with
    | Some cause =>
        errors_Is (Errorf "commit" (Some (ErrDriver "disk I/O error"))) cause
          = true ∧
        (c = CBegin ∧ Errorf "commit" (Some (ErrDriver "disk I/O error")) =
           Errorf "begin tx" (Some cause) ∨
         c = CRollback ∧ Errorf "commit" (Some (ErrDriver "disk I/O error")) =
           Errorf "rollback" (Some cause) ∨
         c = CCommit ∧ Errorf "commit" (Some (ErrDriver "disk I/O error")) =
           Errorf "commit" (Some cause))
    | None => c = CRollback ∧
              Unwrap (Errorf "commit" (Some (ErrDriver "disk I/O error"))) = None
    end.
Proof.
  intros w. split; [reflexivity|].
  apply (BatchUpdateInventory_error_cause [(1, 3); (2, 0)] w). reflexivity.
Defined.

(** * CountWordFrequency *)

Section WordFrequencyFacts.

Import WordFrequency.

Variable u : Unicode.

Implicit Types (st : state) (text : list rune) (r : rune).
Implicit Types (k w : list rune) (n d : Z).

Lemma count_incr k (m0 : gmap (list rune) Z) w :
  count (incr k m0) w = count m0 w + (if decide (w = k) then 1 else 0).
Proof.
  unfold count, incr. destruct (decide (w = k)) as [->|Hne].
  - rewrite lookup_insert_eq. done.
  - rewrite lookup_insert_ne by done. lia.
Qed.

Lemma step_skip st r :
  alnum u r = false → separator u r = false → step u st r = st.
Proof.
  unfold step, separator, alnum. intros -> Hs. simpl in *. by rewrite Hs.
Qed.

Lemma step_separator st r :
  separator u r = true →
  m (step u st r) = m (finish st) ∧ b (step u st r) = [].
Proof.
  unfold step, separator, alnum, finish.
  intros [Ha Hs]%andb_true_iff. apply negb_true_iff in Ha.
  rewrite Ha, Hs. simpl. destruct (b st) eqn:E; simpl; by rewrite ?E.
Qed.

(** The map and the builder after a turn depend on the map and the
    builder before it, not on [words]. *)
Lemma step_core st st' r :
  m st = m st' → b st = b st' →
  m (step u st r) = m (step u st' r) ∧ b (step u st r) = b (step u st' r).
Proof.
  unfold step. intros Hm Hb. rewrite Hm, Hb.
  destruct (IsLetter u r || IsDigit u r); [done|].
  by destruct ((IsSpace u r || (r =? 45)) && Len_pos (b st')).
Qed.

Lemma finish_core st st' :
  m st = m st' → b st = b st' → m (finish st) = m (finish st').
Proof.
  unfold finish. intros Hm Hb. rewrite Hm, Hb. by destruct (Len_pos (b st')).
Qed.

Lemma run_core text : ∀ st st',
  m st = m st' → b st = b st' →
  m (finish (fold_left (step u) text st)) =
  m (finish (fold_left (step u) text st')).
Proof.
  induction text as [|r text IH]; intros st st' Hm Hb; simpl.
  - by apply finish_core.
  - destruct (step_core st st' r Hm Hb). by apply IH.
Qed.

Lemma incr_words_only (m0 : gmap (list rune) Z) w :
  (∀ k n, m0 !! k = Some n → word u k ∧ 1 ≤ n) →
  word u w →
  ∀ k n, incr w m0 !! k = Some n → word u k ∧ 1 ≤ n.
Proof.
  unfold incr. intros Hm Hw k n.
  destruct (decide (w = k)) as [->|Hne].
  - rewrite lookup_insert_eq. intros [= <-]. split; [done|].
    destruct (m0 !! k) as [n0|] eqn:E; simpl; [|lia].
    destruct (Hm _ _ E). lia.
  - rewrite lookup_insert_ne by done. apply Hm.
Qed.

Lemma Len_pos_word w : Len_pos w = true → Forall (word_rune u) w → word u w.
Proof. intros Hl Hf. split; [|done]. by destruct w. Qed.

Lemma step_words_only st r : words_only u st → words_only u (step u st r).
Proof.
  unfold words_only, step. intros [Hm Hb].
  destruct (IsLetter u r || IsDigit u r) eqn:Ha; simpl.
  - split; [done|]. apply Forall_app. split; [done|].
    apply Forall_singleton. by exists r.
  - destruct ((IsSpace u r || (r =? 45)) && Len_pos (b st)) eqn:Hs; simpl;
      [|done].
    apply andb_true_iff in Hs as [_ Hl]. split; [|done].
    apply incr_words_only; [done|]. by apply Len_pos_word.
Qed.

Lemma run_words_only text : ∀ st,
  words_only u st → words_only u (finish (fold_left (step u) text st)).
Proof.
  induction text as [|r text IH]; intros st Hst; simpl.
  - unfold finish. destruct (Len_pos (b st)) eqn:Hl; [|done].
    destruct Hst as [Hm Hb]. split; [|done]. simpl.
    apply incr_words_only; [done|]. by apply Len_pos_word.
  - by apply IH, step_words_only.
Qed.

(** X15.  Every key of the map [CountWordFrequency] returns is a word: it
    is not empty and each of its runes is the lower case of a letter or a
    digit; and every count is at least one. *)
Theorem CountWordFrequency_keys text w n :
  CountWordFrequency u text !! w = Some n → word u w ∧ 1 ≤ n.
Proof.
  unfold CountWordFrequency.
  apply (run_words_only text (mkState (Split text []) ∅ [])).
  split; [|by simpl]. simpl. intros k n0. by rewrite lookup_empty.
Qed.

Lemma run_filter text : ∀ st st',
  m st' = m st → b st' = b st →
  m (finish (fold_left (step u)
       (List.filter (λ r, alnum u r || separator u r) text) st')) =
  m (finish (fold_left (step u) text st)).
Proof.
  induction text as [|r text IH]; intros st st' Hm Hb; simpl.
  - by apply finish_core.
  - destruct (alnum u r) eqn:Ha; simpl.
    + destruct (step_core st' st r Hm Hb). by apply IH.
    + destruct (separator u r) eqn:Hs; simpl.
      * destruct (step_core st' st r Hm Hb). by apply IH.
      * rewrite (step_skip st r Ha Hs). by apply IH.
Qed.

(** X16.  A rune that is neither a letter nor a digit, and neither white
    space nor a hyphen, is passed over without ending the word being
    read: the text with all such runes taken out has the same counts. *)
Theorem CountWordFrequency_punctuation text :
  CountWordFrequency u (List.filter (λ r, alnum u r || separator u r) text) =
  CountWordFrequency u text.
Proof. unfold CountWordFrequency. by apply run_filter. Qed.

(** Two runs from states with the same builder, whose maps differ by [d]
    on the word [w], end with maps that differ by [d] on [w]. *)
Lemma run_shift text w d : ∀ st st',
  b st = b st' → count (m st) w = d + count (m st') w →
  count (m (finish (fold_left (step u) text st))) w =
  d + count (m (finish (fold_left (step u) text st'))) w.
Proof.
  induction text as [|r text IH]; intros st st' Hb Hm; simpl.
  - unfold finish. rewrite Hb. destruct (Len_pos (b st')); [|done].
    simpl. rewrite !count_incr. lia.
  - apply IH; unfold step; rewrite Hb;
      destruct (IsLetter u r || IsDigit u r); simpl; try done;
      destruct ((IsSpace u r || (r =? 45)) && Len_pos (b st')); simpl;
      try done.
    rewrite !count_incr. lia.
Qed.

(** X17.  Counts add up across a separator: for a rune that is white
    space or a hyphen (and not a letter or digit), every word occurs in
    [text1], the rune, [text2] as often as in [text1] and in [text2]
    together. *)
Theorem CountWordFrequency_app text1 sep text2 w :
  separator u sep = true →
  count (CountWordFrequency u (text1 ++ sep :: text2)) w =
  count (CountWordFrequency u text1) w + count (CountWordFrequency u text2) w.
Proof.
  intros Hsep. unfold CountWordFrequency.
  rewrite fold_left_app. simpl.
  set (st1 := fold_left (step u) text1
                (mkState (Split (text1 ++ sep :: text2) []) ∅ [])).
  destruct (step_separator st1 sep Hsep) as [Hm Hb].
  assert (m (finish st1) =
          m (finish (fold_left (step u) text1 (mkState (Split text1 []) ∅ []))))
    as Hm1 by by apply run_core.
  rewrite <- Hm1, <- Hm.
  apply run_shift; [by rewrite Hb|]. simpl.
  unfold count at 3. rewrite lookup_empty. simpl. lia.
Qed.

End WordFrequencyFacts.

Lemma CountWordFrequency_keys_witness :
  WordFrequency.CountWordFrequency WordFrequency.ascii
    (WordFrequency.runes "The quick-brown fox's the THE.")
    !! WordFrequency.runes "the" = Some 3 ∧
  WordFrequency.word WordFrequency.ascii (WordFrequency.runes "the") ∧ 1 ≤ 3.
Proof.
  split; [by vm_compute|].
  apply (CountWordFrequency_keys WordFrequency.ascii
           (WordFrequency.runes "The quick-brown fox's the THE.")).
  by vm_compute.
Defined.

Lemma CountWordFrequency_app_witness :
  let count := WordFrequency.count in
  let run := WordFrequency.CountWordFrequency WordFrequency.ascii in
  let runes := WordFrequency.runes in
  count (run (runes "the end" ++ 45 :: runes "The beginning")) (runes "the") =
  count (run (runes "the end")) (runes "the") +
  count (run (runes "The beginning")) (runes "the").
Proof.
  intros count run runes.
  apply (CountWordFrequency_app WordFrequency.ascii). reflexivity.
Defined.
